(** * gcache: the LRU and ARC engines, their expiration model and read-through path

    A shallow embedding of [cache.go], [lru.go] and the ARC engine.

    Conventions of the embedding.
    - Go's [int] is [Z]; every quantity the engines compute is a list length,
      the capacity or a sum of those, far below the machine range.
    - [time.Time] is an instant on the integer line, [time.Duration] an
      integer offset; [Before] is [<] and [Add] is [+].
    - One call of a cache method observes one [World]: the instants that the
      wall clock and an injected clock show while the call runs.
    - A function that holds the cache lock is one state transformer; a Go
      panic (nil dereference, division by zero) is [None].
    - User callbacks cannot be run; the calls the cache makes to them are
      appended to a ghost trace, [calls], oldest first. *)

From stdpp Require Import gmap strings list fin_maps.

#[local] Set Warnings "-clear-no-such-hyp".
Local Open Scope Z_scope.

(** ** Instants, clocks *)

Definition Time := Z.
Definition Duration := Z.

Record World := mkWorld {
  wall : Time;        (* the instant the operating system reports *)
  injected : Time     (* the instant an injected (test) clock shows *)
}.

(** [time.Now()] of the Go runtime. *)
Definition time_Now (w : World) : Time := wall w.

(** Modelled from the spec: the [Clock] interface, declared in clock.go,
    which this development does not cover: "Clock: Now() -> Instant",
    swappable for tests. A clock is whatever yields an instant from the
    world. *)
Definition Clock := World -> Time.

Definition Now (clk : Clock) (w : World) : Time := clk w.

(** Modelled from the spec: the clock [New] installs reads the wall clock. *)
Definition NewRealClock : Clock := time_Now.

(** A clock that a test advances by hand. *)
Definition FakeClock : Clock := injected.

Definition Before (t u : Time) : bool := t <? u.
Definition Add (t : Time) (d : Duration) : Time := t + d.

(** ** Zero values *)

(** [var v V]: the zero value of a Go type. *)
Class ZeroValue (V : Type) := zero : V.

#[global] Instance Z_zero : ZeroValue Z := 0.
#[global] Instance string_zero : ZeroValue string := EmptyString.

(** ** Errors *)

Inductive error :=
| KeyNotFoundError
| errorString (s : string)
| wrapError (s : string) (err : error).

#[global] Instance error_eq_dec : EqDecision error.
Proof. solve_decision. Defined.

(** [errors.Is]: the error itself or one it wraps. *)
Fixpoint errors_Is (err target : error) : bool :=
  if decide (err = target) then true
  else match err with
       | wrapError _ inner => errors_Is inner target
       | _ => false
       end.

(** [fmt.Errorf("loader panics: %v", r)], the panic value already rendered. *)
Definition loader_panics (r : string) : error :=
  errorString ("loader panics: " +:+ r).

(** ** Statistics *)

(** Modelled from the spec: the statistics of stats.go, which this
    development does not cover: two monotonic counters, hits and misses. *)
Record stats := mkStats { hitCount : N; missCount : N }.

Definition IncrHitCount (st : stats) : stats :=
  mkStats (hitCount st + 1)%N (missCount st).
Definition IncrMissCount (st : stats) : stats :=
  mkStats (hitCount st) (missCount st + 1)%N.

(** ** Calls to user functions *)

Inductive call (K V : Type) :=
| Evicted (k : K) (v : V)        (* evictedFunc(k, v) *)
| Added (k : K) (v : V)          (* addedFunc(k, v) *)
| PurgeVisited (k : K) (v : V)   (* purgeVisitorFunc(k, v) *)
| Loader (k : K).                (* loaderExpireFunc(ctx, k) *)
Arguments Evicted {K V}.
Arguments Added {K V}.
Arguments PurgeVisited {K V}.
Arguments Loader {K V}.

(** What a loader does when called: it returns its triple or it panics. *)
Inductive LoaderResult (V : Type) :=
| LoaderReturn (v : V) (expiration : option Duration) (e : option error)
| LoaderPanic (r : string).
Arguments LoaderReturn {V}.
Arguments LoaderPanic {V}.

(** ** container/list, as the engines use it

    A list of keys, front first; an element is identified with the key it
    holds (the engines never put a key into one list twice). *)

Section ContainerList.
Context {K : Type} `{EqDecision K}.

(** [l.Remove(e)]: unlink one element. *)
Fixpoint list_Remove (e : K) (xs : list K) : list K :=
  match xs with
  | [] => []
  | x :: r => if decide (x = e) then r else x :: list_Remove e r
  end.

(** [l.MoveToFront(e)]: nothing happens unless [e] is an element of [l]. *)
Definition list_MoveToFront (e : K) (xs : list K) : list K :=
  if decide (e ∈ xs) then e :: list_Remove e xs else xs.

(** [l.PushFront(v)] *)
Definition list_PushFront (e : K) (xs : list K) : list K := e :: xs.

End ContainerList.

(** ** cache.go: the shared part of every engine *)

Module Base.

Record baseCache (K V : Type) := mk {
  clock : Clock;
  size : Z;
  loaderExpireFunc : option (World -> K -> LoaderResult V);
  evictedFunc : bool;                       (* non-nil? *)
  purgeVisitorFunc : bool;                  (* non-nil? *)
  addedFunc : bool;                         (* non-nil? *)
  deserializeFunc : option (K -> V -> V * option error);
  serializeFunc : option (K -> V -> V * option error);
  expiration : option Duration;
  stats_ : stats;
  calls : list (call K V)
}.
Arguments mk {K V}.
Arguments clock {K V}.
Arguments size {K V}.
Arguments loaderExpireFunc {K V}.
Arguments evictedFunc {K V}.
Arguments purgeVisitorFunc {K V}.
Arguments addedFunc {K V}.
Arguments deserializeFunc {K V}.
Arguments serializeFunc {K V}.
Arguments expiration {K V}.
Arguments stats_ {K V}.
Arguments calls {K V}.

Definition with_stats {K V} (c : baseCache K V) (st : stats) : baseCache K V :=
  mk (clock c) (size c) (loaderExpireFunc c) (evictedFunc c)
     (purgeVisitorFunc c) (addedFunc c) (deserializeFunc c) (serializeFunc c)
     (expiration c) st (calls c).

Definition with_calls {K V} (c : baseCache K V) (cs : list (call K V))
  : baseCache K V :=
  mk (clock c) (size c) (loaderExpireFunc c) (evictedFunc c)
     (purgeVisitorFunc c) (addedFunc c) (deserializeFunc c) (serializeFunc c)
     (expiration c) (stats_ c) cs.

Definition with_clock {K V} (c : baseCache K V) (clk : Clock) : baseCache K V :=
  mk clk (size c) (loaderExpireFunc c) (evictedFunc c)
     (purgeVisitorFunc c) (addedFunc c) (deserializeFunc c) (serializeFunc c)
     (expiration c) (stats_ c) (calls c).

Definition record {K V} (c : baseCache K V) (e : call K V) : baseCache K V :=
  with_calls c (calls c ++ [e]).

(** [if c.evictedFunc != nil { c.evictedFunc(k, v) }] *)
Definition call_evicted {K V} (c : baseCache K V) (k : K) (v : V) :=
  if evictedFunc c then record c (Evicted k v) else c.

(** [if c.addedFunc != nil { c.addedFunc(k, v) }] *)
Definition call_added {K V} (c : baseCache K V) (k : K) (v : V) :=
  if addedFunc c then record c (Added k v) else c.

(** [if c.serializeFunc != nil { value, err = c.serializeFunc(key, value) }] *)
Definition serialized {K V} (c : baseCache K V) (key : K) (value : V)
  : V * option error :=
  match serializeFunc c with
  | Some f => f key value
  | None => (value, None)
  end.

Definition incr_hit {K V} (c : baseCache K V) :=
  with_stats c (IncrHitCount (stats_ c)).
Definition incr_miss {K V} (c : baseCache K V) :=
  with_stats c (IncrMissCount (stats_ c)).

(** [CacheBuilder]: [New(size)] followed by the fluent setters, collected. *)
Record CacheBuilder (K V : Type) := mkBuilder {
  cb_clock : Clock;
  cb_size : Z;
  cb_loaderExpireFunc : option (World -> K -> LoaderResult V);
  cb_evictedFunc : bool;
  cb_purgeVisitorFunc : bool;
  cb_addedFunc : bool;
  cb_expiration : option Duration;
  cb_deserializeFunc : option (K -> V -> V * option error);
  cb_serializeFunc : option (K -> V -> V * option error)
}.
Arguments mkBuilder {K V}.
Arguments cb_clock {K V}.
Arguments cb_size {K V}.
Arguments cb_loaderExpireFunc {K V}.
Arguments cb_evictedFunc {K V}.
Arguments cb_purgeVisitorFunc {K V}.
Arguments cb_addedFunc {K V}.
Arguments cb_expiration {K V}.
Arguments cb_deserializeFunc {K V}.
Arguments cb_serializeFunc {K V}.

Definition New {K V} (size : Z) : CacheBuilder K V :=
  mkBuilder NewRealClock size None false false false None None None.

Definition buildCache {K V} (cb : CacheBuilder K V) : baseCache K V :=
  mk (cb_clock cb) (cb_size cb) (cb_loaderExpireFunc cb) (cb_evictedFunc cb)
     (cb_purgeVisitorFunc cb) (cb_addedFunc cb) (cb_deserializeFunc cb)
     (cb_serializeFunc cb) (cb_expiration cb) (mkStats 0 0) [].

(** Modelled from the spec: [Group.Do] of the single-flight group, defined in
    singleflight.go, which this development does not cover, for a caller that
    finds no pending record: "create one, set called = true for this caller,
    invoke the loader outside any lock, catch panics, store the (value, err)
    tuple"; in no-wait mode "the caller spawns the load in a detached task
    and returns KeyNotFound immediately". The detached task is run to
    completion before the caller goes on, which is one of its schedules.
    [fn] is the closure [load] passes; it yields the state it leaves and its
    pair. *)
Definition Do {S V : Type} `{ZeroValue V}
    (fn : option (S * (V * option error))) (isWait : bool)
  : option (S * (V * bool * option error)) :=
  match fn with
  | None => None
  | Some (s, (v, e)) =>
      if isWait then Some (s, (v, true, e))
      else Some (s, (zero, false, Some KeyNotFoundError))
  end.

(** Engines embed [baseCache]; [load] is written once for all of them. *)
Class Embeds (S K V : Type) := {
  base_of : S -> baseCache K V;
  with_base : S -> baseCache K V -> S
}.

(** [baseCache.load]. [cb] is the closure of [getWithLoader]; it runs inside
    the function that recovers from panics. A nil [loaderExpireFunc] is a
    nil call, recovered like any other panic. *)
Definition load {S K V : Type} `{ZeroValue V} `{Embeds S K V}
    (c : S) (w : World) (key : K)
    (cb : S -> V -> option Duration -> option error
          -> option (S * (V * option error)))
    (isWait : bool) : option (S * (V * bool * option error)) :=
  let fn :=
    match loaderExpireFunc (base_of c) with
    | None =>
        Some (c, (zero, Some (loader_panics
          "runtime error: invalid memory address or nil pointer dereference")))
    | Some loader =>
        let c := with_base c (record (base_of c) (Loader key)) in
        match loader w key with
        | LoaderPanic r => Some (c, (zero, Some (loader_panics r)))
        | LoaderReturn v expiration e => cb c v expiration e
        end
    end in
  match Do fn isWait with
  | None => None
  | Some (c, (v, called, Some err)) => Some (c, (zero, called, Some err))
  | Some (c, (v, called, None)) => Some (c, (v, called, None))
  end.

(** The fluent setters of the builder. A callback argument stands for a
    non-nil function. *)
Definition Clock {K V} (cb : CacheBuilder K V) (clock : World -> Time)
  : CacheBuilder K V :=
  mkBuilder clock (cb_size cb) (cb_loaderExpireFunc cb) (cb_evictedFunc cb)
    (cb_purgeVisitorFunc cb) (cb_addedFunc cb) (cb_expiration cb)
    (cb_deserializeFunc cb) (cb_serializeFunc cb).

Definition LoaderExpireFunc {K V} (cb : CacheBuilder K V)
    (loaderExpireFunc : World -> K -> LoaderResult V) : CacheBuilder K V :=
  mkBuilder (cb_clock cb) (cb_size cb) (Some loaderExpireFunc)
    (cb_evictedFunc cb) (cb_purgeVisitorFunc cb) (cb_addedFunc cb)
    (cb_expiration cb) (cb_deserializeFunc cb) (cb_serializeFunc cb).

(** [LoaderFunc] wraps a loader without expiration: the duration is nil. *)
Definition LoaderFunc {K V} (cb : CacheBuilder K V)
    (loaderFunc : World -> K -> LoaderResult V) : CacheBuilder K V :=
  LoaderExpireFunc cb
    (fun w k =>
       match loaderFunc w k with
       | LoaderReturn v _ err => LoaderReturn v None err
       | LoaderPanic r => LoaderPanic r
       end).

Definition EvictedFunc {K V} (cb : CacheBuilder K V) : CacheBuilder K V :=
  mkBuilder (cb_clock cb) (cb_size cb) (cb_loaderExpireFunc cb) true
    (cb_purgeVisitorFunc cb) (cb_addedFunc cb) (cb_expiration cb)
    (cb_deserializeFunc cb) (cb_serializeFunc cb).

Definition PurgeVisitorFunc {K V} (cb : CacheBuilder K V)
  : CacheBuilder K V :=
  mkBuilder (cb_clock cb) (cb_size cb) (cb_loaderExpireFunc cb)
    (cb_evictedFunc cb) true (cb_addedFunc cb) (cb_expiration cb)
    (cb_deserializeFunc cb) (cb_serializeFunc cb).

Definition AddedFunc {K V} (cb : CacheBuilder K V) : CacheBuilder K V :=
  mkBuilder (cb_clock cb) (cb_size cb) (cb_loaderExpireFunc cb)
    (cb_evictedFunc cb) (cb_purgeVisitorFunc cb) true (cb_expiration cb)
    (cb_deserializeFunc cb) (cb_serializeFunc cb).


Definition SerializeFunc {K V} (cb : CacheBuilder K V)
    (serializeFunc : K -> V -> V * option error) : CacheBuilder K V :=
  mkBuilder (cb_clock cb) (cb_size cb) (cb_loaderExpireFunc cb)
    (cb_evictedFunc cb) (cb_purgeVisitorFunc cb) (cb_addedFunc cb)
    (cb_expiration cb) (cb_deserializeFunc cb) (Some serializeFunc).

Definition Expiration {K V} (cb : CacheBuilder K V) (expiration : Duration)
  : CacheBuilder K V :=
  mkBuilder (cb_clock cb) (cb_size cb) (cb_loaderExpireFunc cb)
    (cb_evictedFunc cb) (cb_purgeVisitorFunc cb) (cb_addedFunc cb)
    (Some expiration) (cb_deserializeFunc cb) (cb_serializeFunc cb).

(** The trace of calls only grows. *)
Definition calls_grow {K V} (b b' : baseCache K V) : Prop :=
  calls b `prefix_of` calls b'.

End Base.

(** ** lru.go *)

Module lru.

Record lruItem (K V : Type) := mkItem {
  clock : Clock;
  key : K;
  value : V;
  expiration : option Time
}.
Arguments mkItem {K V}.
Arguments clock {K V}.
Arguments key {K V}.
Arguments value {K V}.
Arguments expiration {K V}.

(** [items] maps a key to its list element and [evictList] chains the
    elements, most recent first. An element is identified with the key of
    the item it carries: [items] gives the item of each element and
    [evictList] the order of the elements. *)
Record LRUCache (K V : Type) `{Countable K} := mkLRU {
  base : Base.baseCache K V;
  items : gmap K (lruItem K V);
  evictList : list K
}.
Arguments mkLRU {K V _ _}.
Arguments base {K V _ _}.
Arguments items {K V _ _}.
Arguments evictList {K V _ _}.

Section LRU.
Context {K V : Type} `{Countable K} `{ZeroValue V}.

#[global] Instance lru_embeds : Base.Embeds (LRUCache K V) K V :=
  {| Base.base_of := base;
     Base.with_base c b := mkLRU b (items c) (evictList c) |}.

Definition with_items (c : LRUCache K V) (m : gmap K (lruItem K V)) : LRUCache K V :=
  mkLRU (base c) m (evictList c).
Definition with_evictList (c : LRUCache K V) (l : list K) : LRUCache K V :=
  mkLRU (base c) (items c) l.

Definition newLRUCache (cb : Base.CacheBuilder K V) : LRUCache K V :=
  mkLRU (Base.buildCache cb) ∅ [].

(** [Build] for the LRU policy: a panic unless the size is positive. *)
Definition Build (cb : Base.CacheBuilder K V) : option (LRUCache K V) :=
  if Base.cb_size cb <=? 0 then None else Some (newLRUCache cb).

(** [c.init()] *)
Definition init (c : LRUCache K V) : LRUCache K V := mkLRU (base c) ∅ [].

(** [lruItem.IsExpired]; [now = None] is the nil pointer. *)
Definition IsExpired (it : lruItem K V) (now : option Time) (w : World) : bool :=
  match expiration it with
  | None => false
  | Some e =>
      let now := match now with
                 | None => Now (clock it) w
                 | Some t => t
                 end in
      Before e now
  end.

Definition removeElement (c : LRUCache K V) (e : K) : LRUCache K V :=
  let c := with_evictList c (list_Remove e (evictList c)) in
  match items c !! e with
  | None => c
  | Some entry =>
      let c := with_items c (delete (lru.key entry) (items c)) in
      Base.with_base c
        (Base.call_evicted (base c) (lru.key entry) (lru.value entry))
  end.

(** [evict(count)]: the loop runs [count] times or until the list is empty. *)
Fixpoint evict (c : LRUCache K V) (count : nat) : LRUCache K V :=
  match count with
  | O => c
  | S n =>
      match last (evictList c) with
      | None => c
      | Some ent => evict (removeElement c ent) n
      end
  end.

(** The item pointer that [set] returns aliases the item stored for [key];
    writing [item.expiration] through it is this update. *)
Definition set_expiration (c : LRUCache K V) (key : K) (t : Time) : LRUCache K V :=
  with_items c
    (alter (fun it => mkItem (clock it) (lru.key it) (value it) (Some t))
           key (items c)).

Definition set (c : LRUCache K V) (w : World) (key : K) (value : V)
  : LRUCache K V * option error :=
  let '(value, err) := Base.serialized (base c) key value in
  match err with
  | Some e => (c, Some e)
  | None =>
      let c :=
        match items c !! key with
        | Some it =>
            let c := with_evictList c (list_MoveToFront key (evictList c)) in
            with_items c
              (<[key := mkItem (clock it) (lru.key it) value (expiration it)]>
                 (items c))
        | None =>
            let c :=
              if Z.of_nat (length (evictList c)) >=? Base.size (base c)
              then evict c 1 else c in
            let item := mkItem (Base.clock (base c)) key value None in
            let c := with_evictList c (list_PushFront key (evictList c)) in
            with_items c (<[key := item]> (items c))
        end in
      let c :=
        match Base.expiration (base c) with
        | Some d => set_expiration c key (Add (Now (Base.clock (base c)) w) d)
        | None => c
        end in
      (Base.with_base c (Base.call_added (base c) key value), None)
  end.

Definition Set_ (c : LRUCache K V) (w : World) (key : K) (value : V)
  : LRUCache K V * option error := set c w key value.

Definition SetWithExpire (c : LRUCache K V) (w : World) (key : K) (value : V)
    (expiration : Duration) : LRUCache K V * option error :=
  match set c w key value with
  | (c, Some err) => (c, Some err)
  | (c, None) =>
      (set_expiration c key (Add (Now (Base.clock (base c)) w) expiration),
       None)
  end.

Definition getValue (c : LRUCache K V) (w : World) (key : K) (onLoad : bool)
  : LRUCache K V * (V * option error) :=
  let miss (c : LRUCache K V) :=
    let c := if onLoad then c else Base.with_base c (Base.incr_miss (base c)) in
    (c, (zero, Some KeyNotFoundError)) in
  match items c !! key with
  | Some it =>
      if negb (IsExpired it None w) then
        let c := with_evictList c (list_MoveToFront key (evictList c)) in
        let v := lru.value it in
        let c :=
          if onLoad then c else Base.with_base c (Base.incr_hit (base c)) in
        (c, (v, None))
      else miss (removeElement c key)
  | None => miss c
  end.

Definition get (c : LRUCache K V) (w : World) (key : K) (onLoad : bool)
  : LRUCache K V * (V * option error) :=
  match getValue c w key onLoad with
  | (c, (v, Some err)) => (c, (v, Some err))
  | (c, (v, None)) =>
      match Base.deserializeFunc (base c) with
      | Some f => (c, f key v)
      | None => (c, (v, None))
      end
  end.

Definition getWithLoader (c : LRUCache K V) (w : World) (key : K) (isWait : bool)
  : option (LRUCache K V * (V * option error)) :=
  match Base.loaderExpireFunc (base c) with
  | None => Some (c, (zero, Some KeyNotFoundError))
  | Some _ =>
      let cb (c : LRUCache K V) (v : V) (expiration : option Duration)
             (e : option error) :=
        match e with
        | Some e => Some (c, (v, Some e))
        | None =>
            match set c w key v with
            | (c, Some err) => Some (c, (zero, Some err))
            | (c, None) =>
                let c :=
                  match expiration with
                  | Some d =>
                      set_expiration c key
                        (Add (Now (Base.clock (base c)) w) d)
                  | None => c
                  end in
                Some (c, (v, None))
            end
        end in
      match Base.load c w key cb isWait with
      | None => None
      | Some (c, (_, _, Some err)) => Some (c, (zero, Some err))
      | Some (c, (value, _, None)) => Some (c, (value, None))
      end
  end.

Definition GetWithContext (c : LRUCache K V) (w : World) (key : K)
  : option (LRUCache K V * (V * option error)) :=
  match get c w key false with
  | (c, (v, Some err)) =>
      if errors_Is err KeyNotFoundError then getWithLoader c w key true
      else Some (c, (v, Some err))
  | (c, (v, None)) => Some (c, (v, None))
  end.

Definition GetIFPresentWithContext (c : LRUCache K V) (w : World) (key : K)
  : option (LRUCache K V * (V * option error)) :=
  match get c w key false with
  | (c, (v, Some err)) =>
      if errors_Is err KeyNotFoundError then getWithLoader c w key false
      else Some (c, (v, Some err))
  | (c, (v, None)) => Some (c, (v, None))
  end.

Definition Get := GetWithContext.
Definition GetIFPresent := GetIFPresentWithContext.

Definition has (c : LRUCache K V) (key : K) (now : option Time) (w : World) : bool :=
  match items c !! key with
  | None => false
  | Some it => negb (IsExpired it now w)
  end.

Definition Has (c : LRUCache K V) (w : World) (key : K) : bool :=
  let now := time_Now w in
  has c key (Some now) w.

Definition remove (c : LRUCache K V) (key : K) : LRUCache K V * bool :=
  match items c !! key with
  | Some _ => (removeElement c key, true)
  | None => (c, false)
  end.

Definition Remove := remove.

(** The snapshots range over the map; Go leaves the order unspecified and
    the model takes the order of [map_to_list]. *)
Definition GetALL (c : LRUCache K V) (w : World) (checkExpired : bool) : gmap K V :=
  let now := time_Now w in
  lru.value <$>
    filter (fun kv => negb checkExpired || has c kv.1 (Some now) w = true)
           (items c).

Definition Keys (c : LRUCache K V) (w : World) (checkExpired : bool) : list K :=
  let now := time_Now w in
  filter (fun k => negb checkExpired || has c k (Some now) w = true)
         (map_to_list (items c)).*1.

Definition Len (c : LRUCache K V) (w : World) (checkExpired : bool) : Z :=
  if negb checkExpired then Z.of_nat (size (items c))
  else
    let now := time_Now w in
    Z.of_nat (length (filter (fun k => has c k (Some now) w = true)
                             (map_to_list (items c)).*1)).

Definition Purge (c : LRUCache K V) : LRUCache K V :=
  let c :=
    if Base.purgeVisitorFunc (base c) then
      Base.with_base c
        (Base.with_calls (base c)
           (Base.calls (base c) ++
            ((fun kv => PurgeVisited kv.1 (lru.value kv.2))
               <$> map_to_list (items c))))
    else c in
  init c.

(** *** Well-formed states *)

(** The list chains each indexed key once, and the item found under a key
    carries that key. *)
Record wf (c : LRUCache K V) : Prop := {
  wf_nodup : NoDup (evictList c);
  wf_index : ∀ k, k ∈ evictList c ↔ is_Some (items c !! k);
  wf_key : ∀ k it, items c !! k = Some it → lru.key it = k
}.

End LRU.
End lru.

(** ** The ARC engine *)

Module arc.

Record arcItem (K V : Type) := mkItem {
  clock : Clock;
  key : K;
  value : V;
  expiration : option Time
}.
Arguments mkItem {K V}.
Arguments clock {K V}.
Arguments key {K V}.
Arguments value {K V}.
Arguments expiration {K V}.

(** [arcList]: a linked list of keys, front first, and the index [keys] from
    a key to the element that holds it. An element is identified with the
    key it holds, so the index is modelled by its domain. *)
Record arcList (K : Type) `{Countable K} := mkList {
  l : list K;
  keys : gset K
}.
Arguments mkList {K _ _}.
Arguments l {K _ _}.
Arguments keys {K _ _}.

Record ARC (K V : Type) `{Countable K} := mkARC {
  base : Base.baseCache K V;
  items : gmap K (arcItem K V);
  part : Z;
  t1 : arcList K;
  t2 : arcList K;
  b1 : arcList K;
  b2 : arcList K
}.
Arguments mkARC {K V _ _}.
Arguments base {K V _ _}.
Arguments items {K V _ _}.
Arguments part {K V _ _}.
Arguments t1 {K V _ _}.
Arguments t2 {K V _ _}.
Arguments b1 {K V _ _}.
Arguments b2 {K V _ _}.

Section ARC.
Context {K V : Type} `{Countable K} `{ZeroValue V}.

#[global] Instance arc_embeds : Base.Embeds (ARC K V) K V :=
  {| Base.base_of := base;
     Base.with_base c b :=
       mkARC b (items c) (part c) (t1 c) (t2 c) (b1 c) (b2 c) |}.

Definition with_items (c : ARC K V) (m : gmap K (arcItem K V)) : ARC K V :=
  mkARC (base c) m (part c) (t1 c) (t2 c) (b1 c) (b2 c).
Definition with_part (c : ARC K V) (p : Z) : ARC K V :=
  mkARC (base c) (items c) p (t1 c) (t2 c) (b1 c) (b2 c).
Definition with_t1 (c : ARC K V) (al : arcList K) : ARC K V :=
  mkARC (base c) (items c) (part c) al (t2 c) (b1 c) (b2 c).
Definition with_t2 (c : ARC K V) (al : arcList K) : ARC K V :=
  mkARC (base c) (items c) (part c) (t1 c) al (b1 c) (b2 c).
Definition with_b1 (c : ARC K V) (al : arcList K) : ARC K V :=
  mkARC (base c) (items c) (part c) (t1 c) (t2 c) al (b2 c).
Definition with_b2 (c : ARC K V) (al : arcList K) : ARC K V :=
  mkARC (base c) (items c) (part c) (t1 c) (t2 c) (b1 c) al.

(** *** arcList *)

Definition newARCList : arcList K := mkList [] ∅.

Definition Has_ (al : arcList K) (key : K) : bool :=
  bool_decide (key ∈ keys al).

(** [Lookup] yields the element, or nil. *)
Definition Lookup (al : arcList K) (key : K) : option K :=
  if decide (key ∈ keys al) then Some key else None.

Definition MoveToFront (al : arcList K) (elt : K) : arcList K :=
  mkList (list_MoveToFront elt (l al)) (keys al).

Definition PushFront (al : arcList K) (key : K) : arcList K :=
  if decide (key ∈ keys al) then mkList (list_MoveToFront key (l al)) (keys al)
  else mkList (list_PushFront key (l al)) ({[key]} ∪ keys al).

Definition Remove_ (al : arcList K) (key : K) (elt : K) : arcList K :=
  mkList (list_Remove elt (l al)) (keys al ∖ {[key]}).

(** [RemoveTail] dereferences [l.Back()]: a panic on the empty list. *)
Definition RemoveTail (al : arcList K) : option (arcList K * K) :=
  match last (l al) with
  | None => None
  | Some key => Some (mkList (removelast (l al)) (keys al ∖ {[key]}), key)
  end.

Definition Len_ (al : arcList K) : Z := Z.of_nat (length (l al)).

(** *** arcItem *)

(** [arcItem.IsExpired]; [now = None] is the nil pointer. *)
Definition IsExpired (it : arcItem K V) (now : option Time) (w : World)
  : bool :=
  match expiration it with
  | None => false
  | Some e =>
      let now := match now with
                 | None => Now (clock it) w
                 | Some t => t
                 end in
      Before e now
  end.

(** *** The cache *)

Definition newARC (cb : Base.CacheBuilder K V) : ARC K V :=
  mkARC (Base.buildCache cb) ∅ 0
        newARCList newARCList newARCList newARCList.

(** [Build] for the ARC policy: a panic unless the size is positive. *)
Definition Build (cb : Base.CacheBuilder K V) : option (ARC K V) :=
  if Base.cb_size cb <=? 0 then None else Some (newARC cb).

(** [c.init()]: [part] is left as it is. *)
Definition init (c : ARC K V) : ARC K V :=
  mkARC (base c) ∅ (part c) newARCList newARCList newARCList newARCList.

Definition isCacheFull (c : ARC K V) : bool :=
  Len_ (t1 c) + Len_ (t2 c) =? Base.size (base c).

Definition setPart (c : ARC K V) (p : Z) : ARC K V :=
  if isCacheFull c then with_part c p else c.

(** The tail of [replace] and of the full-[T1] branch of [set]:
    [item, ok := c.items[old]; if ok { delete; evictedFunc }]. *)
Definition drop_item (c : ARC K V) (old : K) : ARC K V :=
  match items c !! old with
  | Some item =>
      let c := with_items c (delete old (items c)) in
      Base.with_base c
        (Base.call_evicted (base c) (arc.key item) (arc.value item))
  | None => c
  end.

Definition replace (c : ARC K V) (key : K) : option (ARC K V) :=
  if negb (isCacheFull c) then Some c
  else
    let from_t1 :=
      match RemoveTail (t1 c) with
      | None => None
      | Some (t1', old) =>
          Some (with_b1 (with_t1 c t1') (PushFront (b1 c) old), old)
      end in
    let victim :=
      if (0 <? Len_ (t1 c)) &&
         ((Has_ (b2 c) key && (Len_ (t1 c) =? part c))
          || (part c <? Len_ (t1 c)))
      then from_t1
      else if 0 <? Len_ (t2 c) then
        match RemoveTail (t2 c) with
        | None => None
        | Some (t2', old) =>
            Some (with_b2 (with_t2 c t2') (PushFront (b2 c) old), old)
        end
      else from_t1 in
    match victim with
    | None => None
    | Some (c, old) => Some (drop_item c old)
    end.

(** Go's integer division panics on a zero divisor. *)
Definition int_div (a b : Z) : option Z :=
  if b =? 0 then None else Some (Z.quot a b).

(** The item pointer that [set] returns aliases the item stored for [key];
    writing [item.expiration] through it is this update. *)
Definition set_expiration (c : ARC K V) (key : K) (t : Time) : ARC K V :=
  with_items c
    (alter (fun it => mkItem (clock it) (arc.key it) (value it) (Some t))
           key (items c)).

(** The body of [set] from the test of the live lists on (the deferred call
    of [addedFunc] runs after it): where [key] goes once its item is stored. *)
Definition place (c : ARC K V) (key : K) : option (ARC K V) :=
  if Has_ (t1 c) key || Has_ (t2 c) key then Some c
  else
    match Lookup (b1 c) key with
    | Some elt =>
        q ← int_div (Len_ (b2 c)) (Len_ (b1 c));
        let c :=
          setPart c (Z.min (Base.size (base c))
                           (part c + Z.max q 1)) in
        c ← replace c key;
        let c := with_b1 c (Remove_ (b1 c) key elt) in
        Some (with_t2 c (PushFront (t2 c) key))
    | None =>
        match Lookup (b2 c) key with
        | Some elt =>
            q ← int_div (Len_ (b1 c)) (Len_ (b2 c));
            let c := setPart c (Z.max 0 (part c - Z.max q 1)) in
            c ← replace c key;
            let c := with_b2 c (Remove_ (b2 c) key elt) in
            Some (with_t2 c (PushFront (t2 c) key))
        | None =>
            c ← (if isCacheFull c &&
                    (Len_ (t1 c) + Len_ (b1 c) =? Base.size (base c))
                 then
                   if Len_ (t1 c) <? Base.size (base c) then
                     '(b1', _) ← RemoveTail (b1 c);
                     replace (with_b1 c b1') key
                   else
                     '(t1', pop) ← RemoveTail (t1 c);
                     Some (drop_item (with_t1 c t1') pop)
                 else
                   let total := Len_ (t1 c) + Len_ (b1 c)
                                + Len_ (t2 c) + Len_ (b2 c) in
                   if total >=? Base.size (base c) then
                     c ← (if total =? 2 * Base.size (base c) then
                             if 0 <? Len_ (b2 c) then
                               '(b2', _) ← RemoveTail (b2 c);
                               Some (with_b2 c b2')
                             else
                               '(b1', _) ← RemoveTail (b1 c);
                               Some (with_b1 c b1')
                           else Some c);
                     replace c key
                   else Some c);
            Some (with_t1 c (PushFront (t1 c) key))
        end
    end.

(** The head of [set], after serialization: the item of [key] gets the
    value (a new item is made for a key without one) and the default
    expiration, if one is configured. *)
Definition store_item (c : ARC K V) (w : World) (key : K) (value : V)
  : ARC K V :=
  let item :=
    match items c !! key with
    | Some item => mkItem (clock item) (arc.key item) value (expiration item)
    | None => mkItem (Base.clock (base c)) key value None
    end in
  let c := with_items c (<[key := item]> (items c)) in
  match Base.expiration (base c) with
  | Some d => set_expiration c key (Add (Now (Base.clock (base c)) w) d)
  | None => c
  end.

Definition set (c : ARC K V) (w : World) (key : K) (value : V)
  : option (ARC K V * option error) :=
  let '(value, err) := Base.serialized (base c) key value in
  match err with
  | Some e => Some (c, Some e)
  | None =>
      let c := store_item c w key value in
      c ← place c key;
      Some (Base.with_base c (Base.call_added (base c) key value), None)
  end.

Definition Set_ (c : ARC K V) (w : World) (key : K) (value : V)
  : option (ARC K V * option error) := set c w key value.

Definition SetWithExpire (c : ARC K V) (w : World) (key : K) (value : V)
    (expiration : Duration) : option (ARC K V * option error) :=
  '(c, err) ← set c w key value;
  match err with
  | Some err => Some (c, Some err)
  | None =>
      Some (set_expiration c key
              (Add (Now (Base.clock (base c)) w) expiration), None)
  end.

(** One of the two blocks of [getValue]: the outcome is a hit, which returns,
    or the state with which the function goes on. *)
Inductive lookup_outcome :=
| Hit (c : ARC K V) (v : V)
| GoOn (c : ARC K V).

Definition count_hit (c : ARC K V) (onLoad : bool) : ARC K V :=
  if onLoad then c else Base.with_base c (Base.incr_hit (base c)).

Definition count_miss (c : ARC K V) (onLoad : bool) : ARC K V :=
  if onLoad then c else Base.with_base c (Base.incr_miss (base c)).

(** [item := c.items[key]] is nil for a key without item, and
    [item.IsExpired] then dereferences nil. *)
Definition getValue_t1 (c : ARC K V) (w : World) (key : K) (onLoad : bool)
  : option lookup_outcome :=
  match Lookup (t1 c) key with
  | Some elt =>
      let c := with_t1 c (Remove_ (t1 c) key elt) in
      item ← items c !! key;
      if negb (IsExpired item None w) then
        let c := with_t2 c (PushFront (t2 c) key) in
        Some (Hit (count_hit c onLoad) (arc.value item))
      else
        let c := with_items c (delete key (items c)) in
        let c := with_b1 c (PushFront (b1 c) key) in
        Some (GoOn (Base.with_base c
          (Base.call_evicted (base c) (arc.key item) (arc.value item))))
  | None => Some (GoOn c)
  end.

Definition getValue_t2 (c : ARC K V) (w : World) (key : K) (onLoad : bool)
  : option lookup_outcome :=
  match Lookup (t2 c) key with
  | Some elt =>
      item ← items c !! key;
      if negb (IsExpired item None w) then
        let c := with_t2 c (MoveToFront (t2 c) elt) in
        Some (Hit (count_hit c onLoad) (arc.value item))
      else
        let c := with_items c (delete key (items c)) in
        let c := with_t2 c (Remove_ (t2 c) key elt) in
        let c := with_b2 c (PushFront (b2 c) key) in
        Some (GoOn (Base.with_base c
          (Base.call_evicted (base c) (arc.key item) (arc.value item))))
  | None => Some (GoOn c)
  end.

Definition getValue (c : ARC K V) (w : World) (key : K) (onLoad : bool)
  : option (ARC K V * (V * option error)) :=
  o1 ← getValue_t1 c w key onLoad;
  match o1 with
  | Hit c v => Some (c, (v, None))
  | GoOn c =>
      o2 ← getValue_t2 c w key onLoad;
      match o2 with
      | Hit c v => Some (c, (v, None))
      | GoOn c =>
          Some (count_miss c onLoad, (zero, Some KeyNotFoundError))
      end
  end.

Definition get (c : ARC K V) (w : World) (key : K) (onLoad : bool)
  : option (ARC K V * (V * option error)) :=
  '(c, (v, err)) ← getValue c w key onLoad;
  match err with
  | Some err => Some (c, (v, Some err))
  | None =>
      match Base.deserializeFunc (base c) with
      | Some f => Some (c, f key v)
      | None => Some (c, (v, None))
      end
  end.

Definition getWithLoader (c : ARC K V) (w : World) (key : K) (isWait : bool)
  : option (ARC K V * (V * option error)) :=
  match Base.loaderExpireFunc (base c) with
  | None => Some (c, (zero, Some KeyNotFoundError))
  | Some _ =>
      let cb (c : ARC K V) (v : V) (expiration : option Duration)
             (e : option error) :=
        match e with
        | Some e => Some (c, (v, Some e))
        | None =>
            '(c, err) ← set c w key v;
            match err with
            | Some err => Some (c, (v, Some err))
            | None =>
                let c :=
                  match expiration with
                  | Some d =>
                      set_expiration c key
                        (Add (Now (Base.clock (base c)) w) d)
                  | None => c
                  end in
                Some (c, (v, None))
            end
        end in
      '(c, (value, _, err)) ← Base.load c w key cb isWait;
      match err with
      | Some err => Some (c, (zero, Some err))
      | None => Some (c, (value, None))
      end
  end.

Definition GetWithContext (c : ARC K V) (w : World) (key : K)
  : option (ARC K V * (V * option error)) :=
  '(c, (v, err)) ← get c w key false;
  match err with
  | Some err =>
      if errors_Is err KeyNotFoundError then getWithLoader c w key true
      else Some (c, (v, Some err))
  | None => Some (c, (v, None))
  end.

Definition GetIFPresentWithContext (c : ARC K V) (w : World) (key : K)
  : option (ARC K V * (V * option error)) :=
  '(c, (v, err)) ← get c w key false;
  match err with
  | Some err =>
      if errors_Is err KeyNotFoundError then getWithLoader c w key false
      else Some (c, (v, Some err))
  | None => Some (c, (v, None))
  end.

Definition Get := GetWithContext.
Definition GetIFPresent := GetIFPresentWithContext.

Definition has (c : ARC K V) (key : K) (now : option Time) (w : World)
  : bool :=
  match items c !! key with
  | None => false
  | Some item => negb (IsExpired item now w)
  end.

Definition Has (c : ARC K V) (w : World) (key : K) : bool :=
  let now := time_Now w in
  has c key (Some now) w.

(** In [remove], [item := c.items[key]] may be nil; [item.value] is read
    only when an [evictedFunc] is installed. *)
Definition remove (c : ARC K V) (key : K) : option (ARC K V * bool) :=
  match Lookup (t1 c) key with
  | Some elt =>
      let c := with_t1 c (Remove_ (t1 c) key elt) in
      let item := items c !! key in
      let c := with_items c (delete key (items c)) in
      let c := with_b1 c (PushFront (b1 c) key) in
      if Base.evictedFunc (base c) then
        item ← item;
        Some (Base.with_base c
                (Base.record (base c) (Evicted key (arc.value item))), true)
      else Some (c, true)
  | None =>
      match Lookup (t2 c) key with
      | Some elt =>
          let c := with_t2 c (Remove_ (t2 c) key elt) in
          let item := items c !! key in
          let c := with_items c (delete key (items c)) in
          let c := with_b2 c (PushFront (b2 c) key) in
          if Base.evictedFunc (base c) then
            item ← item;
            Some (Base.with_base c
                    (Base.record (base c) (Evicted key (arc.value item))),
                  true)
          else Some (c, true)
      | None => Some (c, false)
      end
  end.

Definition Remove := remove.

(** The snapshots range over the map; Go leaves the order unspecified and
    the model takes the order of [map_to_list]. *)
Definition GetALL (c : ARC K V) (w : World) (checkExpired : bool)
  : gmap K V :=
  let now := time_Now w in
  arc.value <$>
    filter (fun kv => negb checkExpired || has c kv.1 (Some now) w = true)
           (items c).

Definition Keys (c : ARC K V) (w : World) (checkExpired : bool) : list K :=
  let now := time_Now w in
  filter (fun k => negb checkExpired || has c k (Some now) w = true)
         (map_to_list (items c)).*1.

Definition Len (c : ARC K V) (w : World) (checkExpired : bool) : Z :=
  if negb checkExpired then Z.of_nat (size (items c))
  else
    let now := time_Now w in
    Z.of_nat (length (filter (fun k => has c k (Some now) w = true)
                             (map_to_list (items c)).*1)).

Definition Purge (c : ARC K V) : ARC K V :=
  let c :=
    if Base.purgeVisitorFunc (base c) then
      Base.with_base c
        (Base.with_calls (base c)
           (Base.calls (base c) ++
            ((fun kv => PurgeVisited (arc.key kv.2) (arc.value kv.2))
               <$> map_to_list (items c))))
    else c in
  init c.

(** *** Well-formed states *)

(** The index of a list knows exactly the keys the list chains, once each. *)
Definition wf_list (al : arcList K) : Prop :=
  NoDup (l al) ∧ ∀ k, k ∈ keys al ↔ k ∈ l al.

(** A well-formed list seen as its set of keys and its length. *)
Definition shape (al : arcList K) (ks : gset K) (n : Z) : Prop :=
  wf_list al ∧ keys al = ks ∧ Len_ al = n.

(** The four lists are well formed and pairwise disjoint. *)
Record lists_ok (c : ARC K V) : Prop := {
  ok_t1 : wf_list (t1 c);
  ok_t2 : wf_list (t2 c);
  ok_b1 : wf_list (b1 c);
  ok_b2 : wf_list (b2 c);
  ok_t1_t2 : keys (t1 c) ## keys (t2 c);
  ok_t1_b1 : keys (t1 c) ## keys (b1 c);
  ok_t1_b2 : keys (t1 c) ## keys (b2 c);
  ok_t2_b1 : keys (t2 c) ## keys (b1 c);
  ok_t2_b2 : keys (t2 c) ## keys (b2 c);
  ok_b1_b2 : keys (b1 c) ## keys (b2 c)
}.

(** |T1| + |T2| and |T1| + |T2| + |B1| + |B2| *)
Definition live (c : ARC K V) : Z := Len_ (t1 c) + Len_ (t2 c).
Definition total (c : ARC K V) : Z :=
  Len_ (t1 c) + Len_ (t2 c) + Len_ (b1 c) + Len_ (b2 c).

(** The facts about the lists and the target that do not mention [items]. *)
Record lists_inv (c : ARC K V) : Prop := {
  li_size : 0 < Base.size (base c);
  li_lists : lists_ok c;
  li_live : live c ≤ Base.size (base c);
  li_total : total c ≤ 2 * Base.size (base c);
  li_part : 0 ≤ part c ≤ Base.size (base c)
}.

Record Inv (c : ARC K V) : Prop := {
  inv_lists : lists_inv c;
  inv_items : dom (items c) = keys (t1 c) ∪ keys (t2 c);
  inv_key : ∀ k it, items c !! k = Some it → arc.key it = k
}.

(** *** Public operations, as data *)

Inductive Op :=
| OpSet (key : K) (value : V)
| OpSetWithExpire (key : K) (value : V) (expiration : Duration)
| OpGet (key : K)
| OpGetIFPresent (key : K)
| OpRemove (key : K)
| OpPurge.

(** The state a public operation leaves, [None] if it panics. *)
Definition exec (c : ARC K V) (wo : World * Op) : option (ARC K V) :=
  let w := wo.1 in
  match wo.2 with
  | OpSet key value => fst <$> Set_ c w key value
  | OpSetWithExpire key value d => fst <$> SetWithExpire c w key value d
  | OpGet key => fst <$> Get c w key
  | OpGetIFPresent key => fst <$> GetIFPresent c w key
  | OpRemove key => fst <$> Remove c key
  | OpPurge => Some (Purge c)
  end.

Fixpoint run (c : ARC K V) (ops : list (World * Op)) : option (ARC K V) :=
  match ops with
  | [] => Some c
  | wo :: ops => c ← exec c wo; run c ops
  end.

(** A state is reachable when some sequence of public operations leads to
    it from a freshly built cache. *)
Definition reachable (c : ARC K V) : Prop :=
  ∃ cb c0 ops, Build cb = Some c0 ∧ run c0 ops = Some c.

(** *** Measures of one step *)

(** The key a public operation may insert. *)
Definition op_key (o : Op) : option K :=
  match o with
  | OpSet key _ | OpSetWithExpire key _ _
  | OpGet key | OpGetIFPresent key => Some key
  | OpRemove _ | OpPurge => None
  end.

(** |T1| + |B1| after a step, against before it: it does not grow, or it
    grows by one because [key], unknown to all four lists, entered [T1]
    outside the branch guarded by "full and |T1| + |B1| = size". *)
Definition t1_b1_step (c : ARC K V) (key : K) (c' : ARC K V) : Prop :=
  Len_ (t1 c') + Len_ (b1 c') ≤ Len_ (t1 c) + Len_ (b1 c)
  ∨ ((key ∉ keys (t1 c) ∪ keys (t2 c) ∪ keys (b1 c) ∪ keys (b2 c))
     ∧ (live c < Base.size (base c)
        ∨ Len_ (t1 c) + Len_ (b1 c) ≠ Base.size (base c))
     ∧ Len_ (t1 c') + Len_ (b1 c') = Len_ (t1 c) + Len_ (b1 c) + 1).

(** A read leaves the lists as they are (a miss on an unknown key), or
    [key] is in one of them afterwards and |T1| + |B1| has not grown. *)
Definition read_step (c : ARC K V) (key : K) (c' : ARC K V) : Prop :=
  (key ∈ keys (t1 c') ∪ keys (t2 c') ∪ keys (b1 c') ∪ keys (b2 c')
   ∧ Len_ (t1 c') + Len_ (b1 c') ≤ Len_ (t1 c) + Len_ (b1 c))
  ∨ (t1 c' = t1 c ∧ t2 c' = t2 c ∧ b1 c' = b1 c ∧ b2 c' = b2 c).

(** What [place] leaves: the lists stay well formed and within the
    capacity bounds, [key] is live, at most one item was dropped. *)
Definition placed (c : ARC K V) (key : K) (c' : ARC K V) : Prop :=
  lists_inv c'
  ∧ Base.size (base c') = Base.size (base c)
  ∧ key ∈ keys (t1 c') ∪ keys (t2 c')
  ∧ ((items c' = items c
      ∧ keys (t1 c') ∪ keys (t2 c') = keys (t1 c) ∪ keys (t2 c) ∪ {[key]})
     ∨ (∃ old, old ≠ key ∧ items c' = delete old (items c)
        ∧ keys (t1 c') ∪ keys (t2 c')
          = ((keys (t1 c) ∪ keys (t2 c)) ∖ {[old]}) ∪ {[key]}))
  ∧ t1_b1_step c key c'.

End ARC.
End arc.

(** ** Concrete caches

    Integer keys and values, capacity 2; the instances at which the
    properties below are exercised. *)

Definition at_ (wall_t injected_t : Time) : World := mkWorld wall_t injected_t.

(** [New(2).Clock(fake)] *)
Definition fake_builder : Base.CacheBuilder Z Z :=
  Base.Clock (Base.New 2) FakeClock.

Definition boom : World -> Z -> LoaderResult Z := fun _ _ => LoaderPanic "boom".

(** [New(2).LoaderExpireFunc(func ... { panic("boom") })] *)
Definition panicking_builder : Base.CacheBuilder Z Z :=
  Base.LoaderExpireFunc (Base.New 2) boom.



(** One entry, key 1, set at instant 100 of both clocks to expire 10 later. *)
Definition lru_one : lru.LRUCache Z Z :=
  (lru.SetWithExpire (lru.newLRUCache fake_builder) (at_ 100 100) 1 7 10).1.




Definition ops_at (w : World) (os : list (arc.Op (K:=Z) (V:=Z)))
  : list (World * arc.Op (K:=Z) (V:=Z)) := (fun o => (w, o)) <$> os.

Definition arc_after (cb : Base.CacheBuilder Z Z) (w : World)
    (os : list (arc.Op (K:=Z) (V:=Z))) : arc.ARC Z Z :=
  default (arc.newARC cb) (arc.run (arc.newARC cb) (ops_at w os)).

Definition arc_fresh : arc.ARC Z Z := arc.newARC (Base.New 2).

(** T1 = [4], T2 = [2], B1 = [3]: full, with a ghost in B1. *)
Definition arc_ghost_b1 : arc.ARC Z Z :=
  arc_after (Base.New 2) (at_ 0 0)
    [arc.OpSet 1 10; arc.OpSet 2 20; arc.OpSet 3 30; arc.OpGet 2;
     arc.OpSet 4 40].

(** T1 = [4], T2 = [3], B2 = [2]: full, with a ghost in B2. *)
Definition arc_ghost_b2 : arc.ARC Z Z :=
  arc_after (Base.New 2) (at_ 0 0)
    [arc.OpSet 1 10; arc.OpSet 2 20; arc.OpSet 3 30; arc.OpGet 2;
     arc.OpSet 4 40; arc.OpSet 3 31].

(** T1 = [1], T2 = [2]. *)
Definition arc_two : arc.ARC Z Z :=
  arc_after (Base.New 2) (at_ 0 0)
    [arc.OpSet 1 10; arc.OpSet 2 20; arc.OpGet 2].

(** One entry, key 1, expiring at 110 on the injected clock. *)
Definition arc_one : arc.ARC Z Z :=
  arc_after fake_builder (at_ 100 100) [arc.OpSetWithExpire 1 7 10].




(** * Properties *)

(** ** container/list *)

Section ContainerListFacts.
Context {K : Type} `{EqDecision K}.
Implicit Types (e x : K) (xs : list K).

Lemma list_Remove_length e xs :
  e ∈ xs → S (length (list_Remove e xs)) = length xs.
Proof.
  induction xs as [|y r IH]; intros Hin; [by apply elem_of_nil in Hin|].
  cbn. destruct (decide (y = e)) as [->|Hne]; [done|].
  cbn. f_equal. apply IH. apply elem_of_cons in Hin as [->|]; done.
Qed.

Lemma list_Remove_notin e xs : e ∉ xs → list_Remove e xs = xs.
Proof.
  induction xs as [|y r IH]; intros Hin; [done|].
  cbn. apply not_elem_of_cons in Hin as [Hne Hin].
  destruct (decide (y = e)); [congruence|]. by rewrite IH.
Qed.

Lemma elem_of_list_Remove e x xs :
  NoDup xs → x ∈ list_Remove e xs ↔ x ∈ xs ∧ x ≠ e.
Proof.
  induction xs as [|y r IH]; intros Hnd; cbn.
  - split; [intros Hx; by apply elem_of_nil in Hx | intros [Hx _]; done].
  - apply NoDup_cons in Hnd as [Hy Hnd].
    destruct (decide (y = e)) as [->|Hne].
    + rewrite elem_of_cons. split.
      * intros Hx. split; [by right|]. intros ->. done.
      * intros [[->|Hx] Hxe]; done.
    + rewrite !elem_of_cons, IH by done. naive_solver.
Qed.

Lemma NoDup_list_Remove e xs : NoDup xs → NoDup (list_Remove e xs).
Proof.
  induction xs as [|y r IH]; intros Hnd; cbn; [done|].
  apply NoDup_cons in Hnd as [Hy Hnd].
  destruct (decide (y = e)); [done|].
  apply NoDup_cons. split; [|by apply IH].
  rewrite elem_of_list_Remove by done. naive_solver.
Qed.

Lemma list_MoveToFront_length e xs :
  length (list_MoveToFront e xs) = length xs.
Proof.
  unfold list_MoveToFront. destruct (decide (e ∈ xs)); [|done].
  cbn. by apply list_Remove_length.
Qed.

Lemma elem_of_list_MoveToFront e x xs :
  NoDup xs → x ∈ list_MoveToFront e xs ↔ x ∈ xs.
Proof.
  intros Hnd. unfold list_MoveToFront. destruct (decide (e ∈ xs)); [|done].
  rewrite elem_of_cons, elem_of_list_Remove by done.
  destruct (decide (x = e)); naive_solver.
Qed.

Lemma NoDup_list_MoveToFront e xs : NoDup xs → NoDup (list_MoveToFront e xs).
Proof.
  intros Hnd. unfold list_MoveToFront. destruct (decide (e ∈ xs)); [|done].
  apply NoDup_cons. split; [|by apply NoDup_list_Remove].
  rewrite elem_of_list_Remove by done. naive_solver.
Qed.

Lemma list_MoveToFront_head e xs :
  e ∈ xs → head (list_MoveToFront e xs) = Some e.
Proof. intros Hin. unfold list_MoveToFront. by rewrite decide_True. Qed.

(** The last element and what is left of the list without it. *)
Lemma last_removelast xs x :
  last xs = Some x → xs = removelast xs ++ [x].
Proof.
  intros Hl. apply last_Some in Hl as [ys ->]. by rewrite removelast_last.
Qed.

End ContainerListFacts.

(** ** arcList *)

Section ArcListFacts.
Context {K : Type} `{Countable K}.
Implicit Types (al : arc.arcList K) (k key : K).

Lemma newARCList_wf : arc.wf_list (arc.newARCList (K:=K)).
Proof.
  split; cbn; [constructor|]. intros k. rewrite elem_of_nil. set_solver.
Qed.

Lemma Lookup_Some al key elt :
  arc.Lookup al key = Some elt ↔ elt = key ∧ key ∈ arc.keys al.
Proof. unfold arc.Lookup. case_decide; naive_solver. Qed.

Lemma Lookup_None al key : arc.Lookup al key = None ↔ key ∉ arc.keys al.
Proof. unfold arc.Lookup. case_decide; naive_solver. Qed.

Lemma Has_true al key : arc.Has_ al key = true ↔ key ∈ arc.keys al.
Proof. unfold arc.Has_. by rewrite bool_decide_eq_true. Qed.

Lemma Has_false al key : arc.Has_ al key = false ↔ key ∉ arc.keys al.
Proof. unfold arc.Has_. by rewrite bool_decide_eq_false. Qed.

Lemma Len_nonneg al : 0 ≤ arc.Len_ al.
Proof. unfold arc.Len_. lia. Qed.

Lemma Len_pos_elem al k : arc.wf_list al → k ∈ arc.keys al → 0 < arc.Len_ al.
Proof.
  intros [_ Hk] Hin. apply Hk in Hin. unfold arc.Len_.
  destruct (arc.l al); [by apply elem_of_nil in Hin | cbn; lia].
Qed.

Lemma MoveToFront_wf al k : arc.wf_list al → arc.wf_list (arc.MoveToFront al k).
Proof.
  intros [Hnd Hk]. split; cbn; [by apply NoDup_list_MoveToFront|].
  intros x. by rewrite elem_of_list_MoveToFront.
Qed.

Lemma Len_MoveToFront al k : arc.Len_ (arc.MoveToFront al k) = arc.Len_ al.
Proof. unfold arc.Len_. cbn. by rewrite list_MoveToFront_length. Qed.

Lemma PushFront_wf al k : arc.wf_list al → arc.wf_list (arc.PushFront al k).
Proof.
  intros [Hnd Hk]. unfold arc.PushFront. case_decide as Hin.
  - by apply (MoveToFront_wf al k).
  - split; cbn; unfold list_PushFront.
    + apply NoDup_cons. split; [by rewrite <- Hk | done].
    + intros x. rewrite elem_of_cons, elem_of_union, elem_of_singleton.
      by rewrite Hk.
Qed.

Lemma keys_PushFront al k :
  arc.keys (arc.PushFront al k) = {[k]} ∪ arc.keys al.
Proof. unfold arc.PushFront. case_decide; cbn; set_solver. Qed.

Lemma Len_PushFront_in al k :
  k ∈ arc.keys al → arc.Len_ (arc.PushFront al k) = arc.Len_ al.
Proof.
  intros Hin. unfold arc.PushFront. rewrite decide_True by done.
  apply (Len_MoveToFront al k).
Qed.

Lemma Len_PushFront_notin al k :
  k ∉ arc.keys al → arc.Len_ (arc.PushFront al k) = arc.Len_ al + 1.
Proof.
  intros Hin. unfold arc.PushFront. rewrite decide_False by done.
  unfold arc.Len_, list_PushFront. cbn. lia.
Qed.

Lemma Len_PushFront_le al k :
  arc.Len_ al ≤ arc.Len_ (arc.PushFront al k) ≤ arc.Len_ al + 1.
Proof.
  destruct (decide (k ∈ arc.keys al)).
  - rewrite Len_PushFront_in by done. lia.
  - rewrite Len_PushFront_notin by done. lia.
Qed.

Lemma PushFront_head al k :
  arc.wf_list al → head (arc.l (arc.PushFront al k)) = Some k.
Proof.
  intros [_ Hk]. unfold arc.PushFront. case_decide as Hin; cbn; [|done].
  apply list_MoveToFront_head. by apply Hk.
Qed.

Lemma Remove_wf al k : arc.wf_list al → arc.wf_list (arc.Remove_ al k k).
Proof.
  intros [Hnd Hk]. split; cbn; [by apply NoDup_list_Remove|].
  intros x. rewrite elem_of_list_Remove, elem_of_difference by done.
  rewrite elem_of_singleton. by rewrite Hk.
Qed.

Lemma Len_Remove al k :
  arc.wf_list al → k ∈ arc.keys al →
  arc.Len_ (arc.Remove_ al k k) = arc.Len_ al - 1.
Proof.
  intros [_ Hk] Hin. apply Hk in Hin. unfold arc.Len_. cbn.
  apply list_Remove_length in Hin. lia.
Qed.

Lemma RemoveTail_Some al :
  arc.wf_list al → 0 < arc.Len_ al →
  ∃ al' k, arc.RemoveTail al = Some (al', k)
    ∧ arc.wf_list al' ∧ k ∈ arc.keys al
    ∧ arc.keys al' = arc.keys al ∖ {[k]}
    ∧ arc.Len_ al' = arc.Len_ al - 1.
Proof.
  intros [Hnd Hk] Hlen. unfold arc.RemoveTail, arc.Len_ in *.
  destruct (last (arc.l al)) as [k|] eqn:Hl.
  - pose proof (last_removelast _ _ Hl) as Heq.
    assert (Hnd' : NoDup (removelast (arc.l al) ++ [k])) by by rewrite <- Heq.
    apply NoDup_app in Hnd' as (Hnd1 & Hnot & _).
    assert (Hkin : k ∈ arc.l al).
    { rewrite Heq. apply elem_of_app. right. by apply list_elem_of_singleton. }
    eexists _, k. split; [done|]. cbn. split_and!.
    + split; cbn; [done|]. intros x.
      rewrite elem_of_difference, elem_of_singleton, Hk.
      rewrite Heq at 1. rewrite elem_of_app, list_elem_of_singleton. split.
      * intros [[Hx|Hx] Hne]; [done|congruence].
      * intros Hx. split; [by left|]. intros ->. apply (Hnot k Hx).
        by apply list_elem_of_singleton.
    + by apply Hk.
    + done.
    + rewrite Heq at 2. rewrite length_app. cbn. lia.
  - apply last_None in Hl. rewrite Hl in Hlen. cbn in Hlen. lia.
Qed.

End ArcListFacts.

(** ** The ARC engine: what each step does to the four lists *)

Section ArcSteps.
Context {K V : Type} `{Countable K} `{ZeroValue V}.
Implicit Types (c : arc.ARC K V) (k key old : K) (w : World).

Lemma size_call_evicted (b : Base.baseCache K V) k v :
  Base.size (Base.call_evicted b k v) = Base.size b.
Proof. unfold Base.call_evicted. by destruct (Base.evictedFunc b). Qed.

Lemma size_call_added (b : Base.baseCache K V) k v :
  Base.size (Base.call_added b k v) = Base.size b.
Proof. unfold Base.call_added. by destruct (Base.addedFunc b). Qed.

Lemma items_drop_item c old :
  arc.items (arc.drop_item c old) = delete old (arc.items c).
Proof.
  unfold arc.drop_item. destruct (arc.items c !! old) eqn:Hold; cbn; [done|].
  symmetry. by apply delete_id.
Qed.

Lemma lists_drop_item c old :
  arc.t1 (arc.drop_item c old) = arc.t1 c
  ∧ arc.t2 (arc.drop_item c old) = arc.t2 c
  ∧ arc.b1 (arc.drop_item c old) = arc.b1 c
  ∧ arc.b2 (arc.drop_item c old) = arc.b2 c
  ∧ arc.part (arc.drop_item c old) = arc.part c
  ∧ Base.size (arc.base (arc.drop_item c old)) = Base.size (arc.base c).
Proof.
  unfold arc.drop_item. destruct (arc.items c !! old); cbn; [|done].
  by rewrite size_call_evicted.
Qed.

(** *** Lists as shapes *)

Lemma shape_of (al : arc.arcList K) :
  arc.wf_list al → arc.shape al (arc.keys al) (arc.Len_ al).
Proof. by intros Hwf. Qed.

Lemma shape_new : arc.shape (arc.newARCList (K:=K)) ∅ 0.
Proof. split; [apply newARCList_wf | done]. Qed.

Lemma shape_nonneg (al : arc.arcList K) ks n : arc.shape al ks n → 0 ≤ n.
Proof. intros (_ & _ & <-). apply Len_nonneg. Qed.

Lemma shape_pos (al : arc.arcList K) ks n k :
  arc.shape al ks n → k ∈ ks → 0 < n.
Proof. intros (Hwf & <- & <-) Hin. by eapply Len_pos_elem. Qed.

Lemma shape_PushFront (al : arc.arcList K) ks n k :
  arc.shape al ks n → k ∉ ks →
  arc.shape (arc.PushFront al k) ({[k]} ∪ ks) (n + 1).
Proof.
  intros (Hwf & <- & <-) Hin. split_and!.
  - by apply PushFront_wf.
  - apply keys_PushFront.
  - by apply Len_PushFront_notin.
Qed.

Lemma shape_Remove (al : arc.arcList K) ks n k :
  arc.shape al ks n → k ∈ ks →
  arc.shape (arc.Remove_ al k k) (ks ∖ {[k]}) (n - 1).
Proof.
  intros (Hwf & <- & <-) Hin. split_and!.
  - by apply Remove_wf.
  - done.
  - by apply Len_Remove.
Qed.

Lemma shape_MoveToFront (al : arc.arcList K) ks n k :
  arc.shape al ks n → arc.shape (arc.MoveToFront al k) ks n.
Proof.
  intros (Hwf & <- & <-). split_and!.
  - by apply MoveToFront_wf.
  - done.
  - apply Len_MoveToFront.
Qed.

Lemma shape_RemoveTail (al : arc.arcList K) ks n :
  arc.shape al ks n → 0 < n →
  ∃ al' k, arc.RemoveTail al = Some (al', k)
    ∧ k ∈ ks ∧ arc.shape al' (ks ∖ {[k]}) (n - 1).
Proof.
  intros (Hwf & <- & <-) Hpos.
  destruct (RemoveTail_Some al Hwf Hpos) as (al' & k & ? & ? & ? & ? & ?).
  exists al', k. by split_and!.
Qed.

(** *** replace *)

(** [replace] leaves a cache that is not full alone; from a full one it
    moves the tail of a live list to the front of its ghost list and drops
    the item of that key. *)
Lemma replace_shape c key S1 S2 G1 G2 n1 n2 m1 m2 :
  arc.shape (arc.t1 c) S1 n1 → arc.shape (arc.t2 c) S2 n2 →
  arc.shape (arc.b1 c) G1 m1 → arc.shape (arc.b2 c) G2 m2 →
  S1 ## G1 → S2 ## G2 → 0 < Base.size (arc.base c) →
  ∃ c', arc.replace c key = Some c'
    ∧ Base.size (arc.base c') = Base.size (arc.base c)
    ∧ arc.part c' = arc.part c
    ∧ ((n1 + n2 ≠ Base.size (arc.base c) ∧ c' = c)
       ∨ (n1 + n2 = Base.size (arc.base c) ∧ ∃ old,
            arc.items c' = delete old (arc.items c)
            ∧ ((old ∈ S1
                ∧ arc.shape (arc.t1 c') (S1 ∖ {[old]}) (n1 - 1)
                ∧ arc.shape (arc.b1 c') ({[old]} ∪ G1) (m1 + 1)
                ∧ arc.t2 c' = arc.t2 c ∧ arc.b2 c' = arc.b2 c)
               ∨ (old ∈ S2
                  ∧ arc.shape (arc.t2 c') (S2 ∖ {[old]}) (n2 - 1)
                  ∧ arc.shape (arc.b2 c') ({[old]} ∪ G2) (m2 + 1)
                  ∧ arc.t1 c' = arc.t1 c ∧ arc.b1 c' = arc.b1 c)))).
Proof.
  intros Ht1 Ht2 Hb1 Hb2 Hd1 Hd2 Hsize. unfold arc.replace.
  pose proof Ht1 as (_ & _ & Hl1). pose proof Ht2 as (_ & _ & Hl2).
  unfold arc.isCacheFull. rewrite Hl1, Hl2.
  destruct (n1 + n2 =? Base.size (arc.base c)) eqn:Hfull; cbn [negb];
    last first.
  { apply Z.eqb_neq in Hfull. exists c. split_and!; try done. by left. }
  apply Z.eqb_eq in Hfull.
  pose proof (shape_nonneg _ _ _ Ht1) as Hn1.
  pose proof (shape_nonneg _ _ _ Ht2) as Hn2.
  assert (Hfrom1 : 0 < n1 →
    ∃ c', match arc.RemoveTail (arc.t1 c) with
          | Some (t1', old) =>
              Some (arc.drop_item
                (arc.with_b1 (arc.with_t1 c t1') (arc.PushFront (arc.b1 c) old))
                old)
          | None => None
          end = Some c'
      ∧ Base.size (arc.base c') = Base.size (arc.base c)
      ∧ arc.part c' = arc.part c
      ∧ ∃ old, arc.items c' = delete old (arc.items c)
          ∧ old ∈ S1
          ∧ arc.shape (arc.t1 c') (S1 ∖ {[old]}) (n1 - 1)
          ∧ arc.shape (arc.b1 c') ({[old]} ∪ G1) (m1 + 1)
          ∧ arc.t2 c' = arc.t2 c ∧ arc.b2 c' = arc.b2 c).
  { intros Hpos.
    destruct (shape_RemoveTail _ _ _ Ht1 Hpos) as (t1' & old & -> & Hin & Hs).
    eexists. split; [done|].
    destruct (lists_drop_item
      (arc.with_b1 (arc.with_t1 c t1') (arc.PushFront (arc.b1 c) old)) old)
      as (-> & -> & -> & -> & -> & ->).
    rewrite items_drop_item. cbn. split_and!; try done.
    exists old. split_and!; try done.
    apply shape_PushFront; [done|]. set_solver. }
  assert (Hfrom2 : 0 < n2 →
    ∃ c', match arc.RemoveTail (arc.t2 c) with
          | Some (t2', old) =>
              Some (arc.drop_item
                (arc.with_b2 (arc.with_t2 c t2') (arc.PushFront (arc.b2 c) old))
                old)
          | None => None
          end = Some c'
      ∧ Base.size (arc.base c') = Base.size (arc.base c)
      ∧ arc.part c' = arc.part c
      ∧ ∃ old, arc.items c' = delete old (arc.items c)
          ∧ old ∈ S2
          ∧ arc.shape (arc.t2 c') (S2 ∖ {[old]}) (n2 - 1)
          ∧ arc.shape (arc.b2 c') ({[old]} ∪ G2) (m2 + 1)
          ∧ arc.t1 c' = arc.t1 c ∧ arc.b1 c' = arc.b1 c).
  { intros Hpos.
    destruct (shape_RemoveTail _ _ _ Ht2 Hpos) as (t2' & old & -> & Hin & Hs).
    eexists. split; [done|].
    destruct (lists_drop_item
      (arc.with_b2 (arc.with_t2 c t2') (arc.PushFront (arc.b2 c) old)) old)
      as (-> & -> & -> & -> & -> & ->).
    rewrite items_drop_item. cbn. split_and!; try done.
    exists old. split_and!; try done.
    apply shape_PushFront; [done|]. set_solver. }
  destruct ((0 <? n1) &&
            ((arc.Has_ (arc.b2 c) key && (n1 =? arc.part c))
             || (arc.part c <? n1))) eqn:Hcond.
  - apply andb_true_iff in Hcond as [Hpos _]. apply Z.ltb_lt in Hpos.
    destruct (Hfrom1 Hpos) as (c' & Hc' & Hs & Hp & old & Hm).
    destruct (arc.RemoveTail (arc.t1 c)) as [[t1' old']|]; [|done].
    exists c'. split_and!; try done. right. split; [done|].
    exists old. destruct Hm as (? & ?). split; [done|]. by left.
  - destruct (0 <? n2) eqn:Hpos2.
    + apply Z.ltb_lt in Hpos2.
      destruct (Hfrom2 Hpos2) as (c' & Hc' & Hs & Hp & old & Hm).
      destruct (arc.RemoveTail (arc.t2 c)) as [[t2' old']|]; [|done].
      exists c'. split_and!; try done. right. split; [done|].
      exists old. destruct Hm as (? & ?). split; [done|]. by right.
    + apply Z.ltb_ge in Hpos2.
      destruct Hfrom1 as (c' & Hc' & Hs & Hp & old & Hm); [lia|].
      destruct (arc.RemoveTail (arc.t1 c)) as [[t1' old']|]; [|done].
      exists c'. split_and!; try done. right. split; [done|].
      exists old. destruct Hm as (? & ?). split; [done|]. by left.
Qed.

(** *** place *)

Lemma placed_intro c key c' S1 S2 G1 G2 n1 n2 m1 m2 S1' S2' G1' G2' n1' n2' m1' m2' :
  arc.shape (arc.t1 c) S1 n1 → arc.shape (arc.t2 c) S2 n2 →
  arc.shape (arc.b1 c) G1 m1 → arc.shape (arc.b2 c) G2 m2 →
  arc.shape (arc.t1 c') S1' n1' → arc.shape (arc.t2 c') S2' n2' →
  arc.shape (arc.b1 c') G1' m1' → arc.shape (arc.b2 c') G2' m2' →
  Base.size (arc.base c') = Base.size (arc.base c) →
  0 < Base.size (arc.base c) →
  (S1' ## S2' ∧ S1' ## G1' ∧ S1' ## G2' ∧ S2' ## G1' ∧ S2' ## G2' ∧ G1' ## G2') →
  n1' + n2' ≤ Base.size (arc.base c) →
  n1' + n2' + m1' + m2' ≤ 2 * Base.size (arc.base c) →
  0 ≤ arc.part c' ≤ Base.size (arc.base c) →
  key ∈ S1' ∪ S2' →
  ((arc.items c' = arc.items c ∧ S1' ∪ S2' = S1 ∪ S2 ∪ {[key]})
   ∨ (∃ old, old ≠ key ∧ arc.items c' = delete old (arc.items c)
      ∧ S1' ∪ S2' = ((S1 ∪ S2) ∖ {[old]}) ∪ {[key]})) →
  (n1' + m1' ≤ n1 + m1
   ∨ ((key ∉ S1 ∪ S2 ∪ G1 ∪ G2)
      ∧ (n1 + n2 < Base.size (arc.base c)
         ∨ n1 + m1 ≠ Base.size (arc.base c))
      ∧ n1' + m1' = n1 + m1 + 1)) →
  arc.placed c key c'.
Proof.
  intros (_ & <- & <-) (_ & <- & <-) (_ & <- & <-) (_ & <- & <-).
  intros (? & <- & <-) (? & <- & <-) (? & <- & <-) (? & <- & <-).
  intros Hs Hpos (? & ? & ? & ? & ? & ?) ? ? ? ? ? ?.
  unfold arc.placed, arc.t1_b1_step. split_and!; try done.
  split; unfold arc.live, arc.total; rewrite ?Hs; try done.
Qed.

Lemma setPart_fields c p :
  arc.t1 (arc.setPart c p) = arc.t1 c
  ∧ arc.t2 (arc.setPart c p) = arc.t2 c
  ∧ arc.b1 (arc.setPart c p) = arc.b1 c
  ∧ arc.b2 (arc.setPart c p) = arc.b2 c
  ∧ arc.items (arc.setPart c p) = arc.items c
  ∧ arc.base (arc.setPart c p) = arc.base c
  ∧ (arc.part (arc.setPart c p) = p ∨ arc.part (arc.setPart c p) = arc.part c).
Proof.
  unfold arc.setPart. destruct (arc.isCacheFull c); cbn; split_and!; auto.
Qed.

Lemma size_setPart c p :
  Base.size (arc.base (arc.setPart c p)) = Base.size (arc.base c).
Proof. by destruct (setPart_fields c p) as (_ & _ & _ & _ & _ & -> & _). Qed.

(** Set goals, from the facts about sets and keys alone. *)
Ltac sets :=
  repeat match goal with
         | H : ?T |- _ =>
             lazymatch type of T with
             | Prop =>
                 lazymatch T with
                 | context [@elem_of] => fail
                 | context [@disjoint] => fail
                 | @eq (gset _) _ _ => fail
                 | (_ ≠ _) => fail
                 | _ => clear H
                 end
             end
         end;
  set_solver.

Ltac solve_shape :=
  lazymatch goal with
  | |- arc.shape (arc.PushFront _ _) _ _ =>
      eapply shape_PushFront; [solve_shape | sets]
  | |- arc.shape (arc.Remove_ _ _ _) _ _ =>
      eapply shape_Remove; [solve_shape | sets]
  | |- arc.shape (arc.MoveToFront _ _) _ _ =>
      eapply shape_MoveToFront; solve_shape
  | |- arc.shape _ _ _ => eassumption
  end.

Lemma int_div_nonneg a b q : 0 ≤ a → 0 ≤ b → arc.int_div a b = Some q → 0 ≤ q.
Proof.
  unfold arc.int_div. intros Ha Hb. case_match; [done|]. intros [= <-].
  apply Z.quot_pos; lia.
Qed.


Lemma replace_shapes c key S1 S2 G1 G2 n1 n2 m1 m2 :
  arc.shape (arc.t1 c) S1 n1 → arc.shape (arc.t2 c) S2 n2 →
  arc.shape (arc.b1 c) G1 m1 → arc.shape (arc.b2 c) G2 m2 →
  S1 ## G1 → S2 ## G2 → 0 < Base.size (arc.base c) →
  ∃ c' S1' S2' G1' G2' n1' n2' m1' m2',
    arc.replace c key = Some c'
    ∧ Base.size (arc.base c') = Base.size (arc.base c)
    ∧ arc.part c' = arc.part c
    ∧ arc.shape (arc.t1 c') S1' n1' ∧ arc.shape (arc.t2 c') S2' n2'
    ∧ arc.shape (arc.b1 c') G1' m1' ∧ arc.shape (arc.b2 c') G2' m2'
    ∧ ((n1 + n2 ≠ Base.size (arc.base c) ∧ arc.items c' = arc.items c
        ∧ S1' = S1 ∧ S2' = S2 ∧ G1' = G1 ∧ G2' = G2
        ∧ n1' = n1 ∧ n2' = n2 ∧ m1' = m1 ∧ m2' = m2)
       ∨ (n1 + n2 = Base.size (arc.base c) ∧ ∃ old,
            arc.items c' = delete old (arc.items c)
            ∧ ((old ∈ S1 ∧ S1' = S1 ∖ {[old]} ∧ G1' = {[old]} ∪ G1
                ∧ S2' = S2 ∧ G2' = G2
                ∧ n1' = n1 - 1 ∧ m1' = m1 + 1 ∧ n2' = n2 ∧ m2' = m2)
               ∨ (old ∈ S2 ∧ S2' = S2 ∖ {[old]} ∧ G2' = {[old]} ∪ G2
                  ∧ S1' = S1 ∧ G1' = G1
                  ∧ n2' = n2 - 1 ∧ m2' = m2 + 1 ∧ n1' = n1 ∧ m1' = m1)))).
Proof.
  intros Ht1 Ht2 Hb1 Hb2 Hd1 Hd2 Hsize.
  destruct (replace_shape c key _ _ _ _ _ _ _ _ Ht1 Ht2 Hb1 Hb2 Hd1 Hd2 Hsize)
    as (c' & Hr & Hs & Hp & [[Hne ->]|[Hfull (old & Hi & Hm)]]).
  - exists c, S1, S2, G1, G2, n1, n2, m1, m2. split_and!; try done.
    left. by split_and!.
  - destruct Hm as [(Hin & St & Sb & E2 & E4)|(Hin & St & Sb & E1 & E3)].
    + exists c', (S1 ∖ {[old]}), S2, ({[old]} ∪ G1), G2,
        (n1 - 1), n2, (m1 + 1), m2.
      rewrite E2, E4. split_and!; try done.
      right. split; [done|]. exists old. split; [done|]. left. by split_and!.
    + exists c', S1, (S2 ∖ {[old]}), G1, ({[old]} ∪ G2),
        n1, (n2 - 1), m1, (m2 + 1).
      rewrite E1, E3. split_and!; try done.
      right. split; [done|]. exists old. split; [done|]. right. by split_and!.
Qed.

Ltac use_replace cm key Sh1 Sh2 Sg1 Sg2 :=
  let cr := fresh "cr" in
  destruct (replace_shapes cm key _ _ _ _ _ _ _ _ Sh1 Sh2 Sg1 Sg2)
    as (cr & S1' & S2' & G1' & G2' & n1' & n2' & m1' & m2'
        & -> & Hs & Hp & Sh1' & Sh2' & Sg1' & Sg2' & Hcase);
  [sets | sets | rewrite ?size_setPart; cbn; done
  | destruct Hcase as
      [(Hne & Hi & -> & -> & -> & -> & -> & -> & -> & ->)
      |(Hfull & old & Hi &
        [(Hold & -> & -> & -> & -> & -> & -> & -> & ->)
        |(Hold & -> & -> & -> & -> & -> & -> & -> & ->)])] ].

Ltac leaf c key Sh1 Sh2 Sg1 Sg2 :=
  eexists; split; [reflexivity|];
  eapply placed_intro; cbn;
  [exact Sh1 | exact Sh2 | exact Sg1 | exact Sg2
  | solve_shape | solve_shape | solve_shape | solve_shape
  | rewrite ?size_call_evicted; congruence
  | done
  | split_and!; sets
  | lia
  | lia
  | lia
  | sets
  | first [ left; split; [cbn; congruence | sets]
          | right; eexists; split_and!;
            [ | cbn; rewrite ?items_drop_item; cbn; first [eassumption | congruence | reflexivity] | sets];
            sets ]
  | first [ left; lia | right; split_and!; [sets | lia | lia] ] ].

Lemma place_spec c key :
  arc.lists_inv c → ∃ c', arc.place c key = Some c' ∧ arc.placed c key c'.
Proof.
  intros [Hsize [Hw1 Hw2 Hw3 Hw4 D12 D11 D1b2 D21 D22 Db] Hlive Htotal Hpart].
  pose proof (shape_of _ Hw1) as Sh1. pose proof (shape_of _ Hw2) as Sh2.
  pose proof (shape_of _ Hw3) as Sg1. pose proof (shape_of _ Hw4) as Sg2.
  pose proof (Len_nonneg (arc.t1 c)) as N1.
  pose proof (Len_nonneg (arc.t2 c)) as N2.
  pose proof (Len_nonneg (arc.b1 c)) as M1.
  pose proof (Len_nonneg (arc.b2 c)) as M2.
  unfold arc.live, arc.total in *.
  unfold arc.place.
  destruct (arc.Has_ (arc.t1 c) key || arc.Has_ (arc.t2 c) key) eqn:Hk.
  { apply orb_true_iff in Hk. rewrite !Has_true in Hk.
    leaf c key Sh1 Sh2 Sg1 Sg2. }
  apply orb_false_iff in Hk as [Hk1 Hk2]. apply Has_false in Hk1, Hk2.
  destruct (arc.Lookup (arc.b1 c) key) as [elt|] eqn:Hb1.
  { apply Lookup_Some in Hb1 as [-> Hin].
    pose proof (Len_pos_elem _ _ Hw3 Hin) as Hpos.
    destruct (arc.int_div (arc.Len_ (arc.b2 c)) (arc.Len_ (arc.b1 c)))
      as [q|] eqn:Hq; last first.
    { unfold arc.int_div in Hq. case_match; [lia|done]. }
    apply int_div_nonneg in Hq; [|done..]. cbn.
    set (p := Z.min _ _).
    destruct (setPart_fields c p) as (E1 & E2 & E3 & E4 & E5 & E6 & E7).
    assert (Sh1m := Sh1). assert (Sh2m := Sh2).
    assert (Sg1m := Sg1). assert (Sg2m := Sg2).
    rewrite <- E1 in Sh1m at 1. rewrite <- E2 in Sh2m at 1.
    rewrite <- E3 in Sg1m at 1. rewrite <- E4 in Sg2m at 1.
    assert (Hpm : 0 ≤ arc.part (arc.setPart c p) ≤ Base.size (arc.base c))
      by (destruct E7 as [-> | ->]; subst p; lia).
    use_replace (arc.setPart c p) key Sh1m Sh2m Sg1m Sg2m;
      rewrite ?E6, ?E5 in *; leaf c key Sh1 Sh2 Sg1 Sg2. }
  destruct (arc.Lookup (arc.b2 c) key) as [elt|] eqn:Hb2.
  { apply Lookup_None in Hb1.
    apply Lookup_Some in Hb2 as [-> Hin].
    pose proof (Len_pos_elem _ _ Hw4 Hin) as Hpos.
    destruct (arc.int_div (arc.Len_ (arc.b1 c)) (arc.Len_ (arc.b2 c)))
      as [q|] eqn:Hq; last first.
    { unfold arc.int_div in Hq. case_match; [lia|done]. }
    apply int_div_nonneg in Hq; [|done..]. cbn.
    set (p := Z.max _ _).
    destruct (setPart_fields c p) as (E1 & E2 & E3 & E4 & E5 & E6 & E7).
    assert (Sh1m := Sh1). assert (Sh2m := Sh2).
    assert (Sg1m := Sg1). assert (Sg2m := Sg2).
    rewrite <- E1 in Sh1m at 1. rewrite <- E2 in Sh2m at 1.
    rewrite <- E3 in Sg1m at 1. rewrite <- E4 in Sg2m at 1.
    assert (Hpm : 0 ≤ arc.part (arc.setPart c p) ≤ Base.size (arc.base c))
      by (destruct E7 as [-> | ->]; subst p; lia).
    use_replace (arc.setPart c p) key Sh1m Sh2m Sg1m Sg2m;
      rewrite ?E6, ?E5 in *; leaf c key Sh1 Sh2 Sg1 Sg2. }
  apply Lookup_None in Hb1, Hb2.
  unfold arc.isCacheFull.
  destruct ((arc.Len_ (arc.t1 c) + arc.Len_ (arc.t2 c) =? Base.size (arc.base c))
            && (arc.Len_ (arc.t1 c) + arc.Len_ (arc.b1 c)
                =? Base.size (arc.base c))) eqn:Hguard.
  { apply andb_true_iff in Hguard as [Hf Hl1]. apply Z.eqb_eq in Hf, Hl1.
    destruct (arc.Len_ (arc.t1 c) <? Base.size (arc.base c)) eqn:Hlt.
    - apply Z.ltb_lt in Hlt.
      destruct (shape_RemoveTail _ _ _ Sg1) as (b1' & x & -> & Hx & Sg1m);
        [lia|]. cbn.
      use_replace (arc.with_b1 c b1') key Sh1 Sh2 Sg1m Sg2;
        cbn in *; leaf c key Sh1 Sh2 Sg1 Sg2.
    - apply Z.ltb_ge in Hlt.
      destruct (shape_RemoveTail _ _ _ Sh1) as (t1' & pop & -> & Hx & Sh1m);
        [lia|]. cbn.
      destruct (lists_drop_item (arc.with_t1 c t1') pop)
        as (F1 & F2 & F3 & F4 & F5 & F6).
      pose proof (items_drop_item (arc.with_t1 c t1') pop) as Hi.
      remember (arc.drop_item (arc.with_t1 c t1') pop) as cd eqn:Hcd.
      clear Hcd. cbn in *.
      rewrite <- F1 in Sh1m. assert (Sh2m := Sh2). rewrite <- F2 in Sh2m at 1.
      assert (Sg1m := Sg1). rewrite <- F3 in Sg1m at 1.
      assert (Sg2m := Sg2). rewrite <- F4 in Sg2m at 1.
      leaf c key Sh1 Sh2 Sg1 Sg2. }
  apply andb_false_iff in Hguard. rewrite !Z.eqb_neq in Hguard.
  cbn zeta.
  destruct (_ >=? _) eqn:Hge; last first.
  { rewrite Z.geb_leb in Hge. apply Z.leb_gt in Hge. cbn.
    leaf c key Sh1 Sh2 Sg1 Sg2. }
  rewrite Z.geb_leb in Hge. apply Z.leb_le in Hge.
  destruct (_ =? _) eqn:Htot.
  - apply Z.eqb_eq in Htot.
    destruct (0 <? arc.Len_ (arc.b2 c)) eqn:Hb2pos.
    + apply Z.ltb_lt in Hb2pos.
      destruct (shape_RemoveTail _ _ _ Sg2) as (b2' & x & -> & Hx & Sg2m);
        [lia|]. cbn.
      use_replace (arc.with_b2 c b2') key Sh1 Sh2 Sg1 Sg2m;
        cbn in *; leaf c key Sh1 Sh2 Sg1 Sg2.
    + apply Z.ltb_ge in Hb2pos.
      destruct (shape_RemoveTail _ _ _ Sg1) as (b1' & x & -> & Hx & Sg1m);
        [lia|]. cbn.
      use_replace (arc.with_b1 c b1') key Sh1 Sh2 Sg1m Sg2;
        cbn in *; leaf c key Sh1 Sh2 Sg1 Sg2.
  - apply Z.eqb_neq in Htot. cbn.
    use_replace c key Sh1 Sh2 Sg1 Sg2; cbn in *; leaf c key Sh1 Sh2 Sg1 Sg2.
Qed.

(** *** The invariant along public operations *)

Lemma lists_inv_same c c' :
  arc.lists_inv c →
  arc.t1 c' = arc.t1 c → arc.t2 c' = arc.t2 c →
  arc.b1 c' = arc.b1 c → arc.b2 c' = arc.b2 c →
  arc.part c' = arc.part c →
  Base.size (arc.base c') = Base.size (arc.base c) →
  arc.lists_inv c'.
Proof.
  intros [? [] ? ? ?] E1 E2 E3 E4 E5 E6.
  split; [| split |..]; unfold arc.live, arc.total in *;
    rewrite ?E1, ?E2, ?E3, ?E4, ?E5, ?E6; done.
Qed.

Lemma Inv_with_base c b :
  arc.Inv c → Base.size b = Base.size (arc.base c) →
  arc.Inv (Base.with_base c b).
Proof.
  intros [Hl Hi Hk] Hs. split; [|done..].
  by apply (lists_inv_same c).
Qed.

Lemma Inv_set_expiration c key t :
  arc.Inv c → arc.Inv (arc.set_expiration c key t).
Proof.
  intros [Hl Hi Hk]. split.
  - by apply (lists_inv_same c).
  - cbn. rewrite <- Hi. apply dom_alter_L.
  - cbn. intros k it. rewrite lookup_alter. case_decide as Hkk.
    + subst k. intros Hit. apply fmap_Some in Hit as (it0 & Hit0 & ->).
      cbn. by apply Hk.
    + apply Hk.
Qed.

Lemma Inv_newARC (cb : Base.CacheBuilder K V) :
  0 < Base.cb_size cb → arc.Inv (arc.newARC cb).
Proof.
  intros Hs. split; [split; [|split|..]|..]; cbn;
    try apply newARCList_wf; try set_solver; try lia;
    unfold arc.live, arc.total, arc.Len_; cbn; lia.
Qed.

Lemma store_item_spec c w key value :
  dom (arc.items c) = arc.keys (arc.t1 c) ∪ arc.keys (arc.t2 c) →
  (∀ k it, arc.items c !! k = Some it → arc.key it = k) →
  arc.t1 (arc.store_item c w key value) = arc.t1 c
  ∧ arc.t2 (arc.store_item c w key value) = arc.t2 c
  ∧ arc.b1 (arc.store_item c w key value) = arc.b1 c
  ∧ arc.b2 (arc.store_item c w key value) = arc.b2 c
  ∧ arc.part (arc.store_item c w key value) = arc.part c
  ∧ arc.base (arc.store_item c w key value) = arc.base c
  ∧ dom (arc.items (arc.store_item c w key value))
    = arc.keys (arc.t1 c) ∪ arc.keys (arc.t2 c) ∪ {[key]}
  ∧ (∀ k it, arc.items (arc.store_item c w key value) !! k = Some it
             → arc.key it = k).
Proof.
  intros Hi Hk. unfold arc.store_item.
  set (item := match arc.items c !! key with
               | Some item => _
               | None => _
               end).
  assert (Hitem : arc.key item = key).
  { subst item. destruct (arc.items c !! key) eqn:Hit; cbn; [|done].
    by apply Hk in Hit. }
  assert (Hkey0 : ∀ k it, <[key:=item]> (arc.items c) !! k = Some it
                          → arc.key it = k).
  { intros k it. rewrite lookup_insert. case_decide; [naive_solver|].
    apply Hk. }
  cbn. destruct (Base.expiration (arc.base c)); cbn; split_and!; try done.
  - rewrite dom_alter_L, dom_insert_L, Hi. set_solver.
  - intros k it. rewrite lookup_alter. case_decide as Hkk; [|apply Hkey0].
    subst k. intros Hit. apply fmap_Some in Hit as (it0 & Hit0 & ->).
    cbn. by apply Hkey0.
  - rewrite dom_insert_L, Hi. set_solver.
Qed.

Lemma set_spec c w key value :
  arc.Inv c →
  ∃ c' err, arc.set c w key value = Some (c', err)
    ∧ arc.Inv c'
    ∧ Base.size (arc.base c') = Base.size (arc.base c)
    ∧ arc.t1_b1_step c key c'
    ∧ (err = None → key ∈ arc.keys (arc.t1 c') ∪ arc.keys (arc.t2 c')).
Proof.
  intros HI. pose proof HI as [Hl Hi Hk]. unfold arc.set.
  destruct (Base.serialized (arc.base c) key value) as [value' [e|]].
  { exists c, (Some e). split_and!; try done. left. lia. }
  assert (Hc1 : arc.t1 (arc.store_item c w key value') = arc.t1 c
                ∧ arc.t2 (arc.store_item c w key value') = arc.t2 c
                ∧ arc.b1 (arc.store_item c w key value') = arc.b1 c
                ∧ arc.b2 (arc.store_item c w key value') = arc.b2 c
                ∧ arc.part (arc.store_item c w key value') = arc.part c
                ∧ arc.base (arc.store_item c w key value') = arc.base c
                ∧ dom (arc.items (arc.store_item c w key value'))
                  = arc.keys (arc.t1 c) ∪ arc.keys (arc.t2 c) ∪ {[key]}
                ∧ (∀ k it, arc.items (arc.store_item c w key value') !! k
                           = Some it → arc.key it = k)).
  { apply store_item_spec; [done|apply Hk]. }
  remember (arc.store_item c w key value') as c1 eqn:Hc1eq. clear Hc1eq.
  destruct Hc1 as (E1 & E2 & E3 & E4 & E5 & E6 & Hd1 & Hk1).
  destruct (place_spec c1 key) as (c' & -> & Hpl).
  { apply (lists_inv_same c); try done. by rewrite E6. }
  destruct Hpl as (Hl' & Hs' & Hin & Hitems & Hstep). cbn.
  unfold arc.t1_b1_step, arc.live in Hstep.
  rewrite ?E1, ?E2, ?E3, ?E4, ?E6 in *.
  eexists _, None. split; [done|]. split_and!.
  - apply Inv_with_base; [|by rewrite size_call_added]. split; [done|..].
    + destruct Hitems as [[-> Hks]|(old & Hne & -> & Hks)].
      * rewrite Hd1. set_solver.
      * rewrite dom_delete_L, Hd1, Hks. set_solver.
    + destruct Hitems as [[-> Hks]|(old & Hne & -> & Hks)]; [done|].
      intros k it Hit. apply lookup_delete_Some in Hit as [_ Hit]. by apply Hk1.
  - cbn. by rewrite size_call_added.
  - exact Hstep.
  - done.
Qed.

Lemma Inv_intro c' S1 S2 G1 G2 n1 n2 m1 m2 :
  arc.shape (arc.t1 c') S1 n1 → arc.shape (arc.t2 c') S2 n2 →
  arc.shape (arc.b1 c') G1 m1 → arc.shape (arc.b2 c') G2 m2 →
  (S1 ## S2 ∧ S1 ## G1 ∧ S1 ## G2 ∧ S2 ## G1 ∧ S2 ## G2 ∧ G1 ## G2) →
  0 < Base.size (arc.base c') →
  n1 + n2 ≤ Base.size (arc.base c') →
  n1 + n2 + m1 + m2 ≤ 2 * Base.size (arc.base c') →
  0 ≤ arc.part c' ≤ Base.size (arc.base c') →
  dom (arc.items c') = S1 ∪ S2 →
  (∀ k it, arc.items c' !! k = Some it → arc.key it = k) →
  arc.Inv c'.
Proof.
  intros (? & <- & <-) (? & <- & <-) (? & <- & <-) (? & <- & <-).
  intros (? & ? & ? & ? & ? & ?) ? ? ? ? ? ?.
  split; [split; [|split|..]|..]; done.
Qed.

(** Set equations that need the case [x = k]. *)
Ltac sets_at k :=
  let x := fresh "x" in
  let Hx := fresh "Hx" in
  apply set_eq; intros x; destruct (decide (x = k)) as [Hx|Hx];
  [subst x|]; sets.

Ltac inv_leaf k :=
  eapply Inv_intro; cbn;
  [ solve_shape | solve_shape | solve_shape | solve_shape
  | split_and!; sets
  | rewrite ?size_call_evicted; done
  | rewrite ?size_call_evicted; lia
  | rewrite ?size_call_evicted; lia
  | rewrite ?size_call_evicted; lia
  | rewrite ?dom_delete_L;
    repeat match goal with H : dom _ = _ |- _ => rewrite ?H; clear H end;
    sets_at k
  | try done ].

Lemma size_count_hit c onLoad :
  Base.size (arc.base (arc.count_hit c onLoad)) = Base.size (arc.base c).
Proof. by destruct onLoad. Qed.

Lemma size_count_miss c onLoad :
  Base.size (arc.base (arc.count_miss c onLoad)) = Base.size (arc.base c).
Proof. by destruct onLoad. Qed.

Lemma Inv_count_hit c onLoad : arc.Inv c → arc.Inv (arc.count_hit c onLoad).
Proof. intros HI. destruct onLoad; [done|]. by apply Inv_with_base. Qed.

Lemma Inv_count_miss c onLoad : arc.Inv c → arc.Inv (arc.count_miss c onLoad).
Proof. intros HI. destruct onLoad; [done|]. by apply Inv_with_base. Qed.

Lemma t1_count_hit c onLoad :
  arc.t1 (arc.count_hit c onLoad) = arc.t1 c.
Proof. by destruct onLoad. Qed.

Lemma t1_count_miss c onLoad :
  arc.t1 (arc.count_miss c onLoad) = arc.t1 c.
Proof. by destruct onLoad. Qed.

Lemma t2_count_hit c onLoad :
  arc.t2 (arc.count_hit c onLoad) = arc.t2 c.
Proof. by destruct onLoad. Qed.

Lemma t2_count_miss c onLoad :
  arc.t2 (arc.count_miss c onLoad) = arc.t2 c.
Proof. by destruct onLoad. Qed.

Lemma b1_count_hit c onLoad :
  arc.b1 (arc.count_hit c onLoad) = arc.b1 c.
Proof. by destruct onLoad. Qed.

Lemma b1_count_miss c onLoad :
  arc.b1 (arc.count_miss c onLoad) = arc.b1 c.
Proof. by destruct onLoad. Qed.

Lemma b2_count_hit c onLoad :
  arc.b2 (arc.count_hit c onLoad) = arc.b2 c.
Proof. by destruct onLoad. Qed.

Lemma b2_count_miss c onLoad :
  arc.b2 (arc.count_miss c onLoad) = arc.b2 c.
Proof. by destruct onLoad. Qed.

Ltac counted :=
  rewrite ?t1_count_hit, ?t2_count_hit, ?b1_count_hit, ?b2_count_hit,
    ?t1_count_miss, ?t2_count_miss, ?b1_count_miss, ?b2_count_miss,
    ?size_count_hit, ?size_count_miss.

Lemma getValue_spec c w key onLoad :
  arc.Inv c →
  ∃ c' r, arc.getValue c w key onLoad = Some (c', r)
    ∧ arc.Inv c'
    ∧ Base.size (arc.base c') = Base.size (arc.base c)
    ∧ arc.read_step c key c'.
Proof.
  intros HI.
  pose proof HI as [[Hsize [Hw1 Hw2 Hw3 Hw4 D12 D11 D1b2 D21 D22 Db]
                      Hlive Htotal Hpart] Hi Hk].
  pose proof (shape_of _ Hw1) as Sh1. pose proof (shape_of _ Hw2) as Sh2.
  pose proof (shape_of _ Hw3) as Sg1. pose proof (shape_of _ Hw4) as Sg2.
  unfold arc.live, arc.total in *.
  assert (Hdel : ∀ k it, delete key (arc.items c) !! k = Some it
                         → arc.key it = k).
  { intros k it Hit. apply lookup_delete_Some in Hit as [_ Hit]. by apply Hk. }
  unfold arc.getValue, arc.getValue_t1.
  destruct (arc.Lookup (arc.t1 c) key) as [elt|] eqn:H1.
  - apply Lookup_Some in H1 as [-> Hin]. cbn.
    destruct (arc.items c !! key) as [item|] eqn:Hitem; last first.
    { apply not_elem_of_dom in Hitem. rewrite Hi in Hitem.
      destruct Hitem. apply elem_of_union. by left. }
    cbn. destruct (arc.IsExpired item None w); cbn.
    + unfold arc.getValue_t2. cbn.
      rewrite (proj2 (Lookup_None _ _)) by sets. cbn.
      eexists _, _. split; [done|].
      split_and!.
      * apply Inv_count_miss. inv_leaf key.
      * counted. cbn. by rewrite size_call_evicted.
      * left. counted. cbn.
        rewrite keys_PushFront, (Len_Remove _ _ Hw1 Hin).
        rewrite (Len_PushFront_notin (arc.b1 c) key) by sets.
        split; [sets|lia].
    + eexists _, _. split; [done|].
      split_and!.
      * apply Inv_count_hit. inv_leaf key.
      * by counted.
      * left. counted. cbn.
        rewrite keys_PushFront, (Len_Remove _ _ Hw1 Hin).
        split; [sets|lia].
  - apply Lookup_None in H1. cbn. unfold arc.getValue_t2.
    destruct (arc.Lookup (arc.t2 c) key) as [elt|] eqn:H2.
    + apply Lookup_Some in H2 as [-> Hin]. cbn.
      destruct (arc.items c !! key) as [item|] eqn:Hitem; last first.
      { apply not_elem_of_dom in Hitem. rewrite Hi in Hitem.
        destruct Hitem. apply elem_of_union. by right. }
      cbn. destruct (arc.IsExpired item None w); cbn.
      * eexists _, _. split; [done|].
        split_and!.
        -- apply Inv_count_miss. inv_leaf key.
        -- counted. cbn. by rewrite size_call_evicted.
        -- left. counted. cbn.
           rewrite keys_PushFront. split; [sets|lia].
      * eexists _, _. split; [done|].
        split_and!.
        -- apply Inv_count_hit. inv_leaf key.
        -- by counted.
        -- left. counted. cbn. split; [sets|lia].
    + apply Lookup_None in H2. cbn.
      eexists _, _. split; [done|].
      split_and!.
      * by apply Inv_count_miss.
      * by counted.
      * right. by counted.
Qed.




Lemma t1_b1_step_refl c key : arc.t1_b1_step c key c.
Proof. left. lia. Qed.

Lemma t1_b1_step_same c key c1 c' :
  arc.t1 c1 = arc.t1 c → arc.t2 c1 = arc.t2 c →
  arc.b1 c1 = arc.b1 c → arc.b2 c1 = arc.b2 c →
  Base.size (arc.base c1) = Base.size (arc.base c) →
  arc.t1_b1_step c1 key c' → arc.t1_b1_step c key c'.
Proof.
  unfold arc.t1_b1_step, arc.live. by intros -> -> -> -> ->.
Qed.

Lemma t1_b1_step_same_r c key c1 c' :
  arc.t1 c' = arc.t1 c1 → arc.b1 c' = arc.b1 c1 →
  arc.t1_b1_step c key c1 → arc.t1_b1_step c key c'.
Proof. unfold arc.t1_b1_step. by intros -> ->. Qed.

Lemma t1_b1_step_read c key c1 c' :
  Base.size (arc.base c1) = Base.size (arc.base c) →
  arc.read_step c key c1 → arc.t1_b1_step c1 key c' → arc.t1_b1_step c key c'.
Proof.
  intros Hs [[Hin Hle]|(E1 & E2 & E3 & E4)] Hstep.
  - destruct Hstep as [Hle'|(Hnot & _)]; [left; lia|done].
  - by apply (t1_b1_step_same c key c1).
Qed.

Lemma remove_spec c key :
  arc.Inv c →
  ∃ c' b, arc.remove c key = Some (c', b)
    ∧ arc.Inv c'
    ∧ Base.size (arc.base c') = Base.size (arc.base c)
    ∧ arc.Len_ (arc.t1 c') + arc.Len_ (arc.b1 c')
      ≤ arc.Len_ (arc.t1 c) + arc.Len_ (arc.b1 c).
Proof.
  intros HI.
  pose proof HI as [[Hsize [Hw1 Hw2 Hw3 Hw4 D12 D11 D1b2 D21 D22 Db]
                      Hlive Htotal Hpart] Hi Hk].
  pose proof (shape_of _ Hw1) as Sh1. pose proof (shape_of _ Hw2) as Sh2.
  pose proof (shape_of _ Hw3) as Sg1. pose proof (shape_of _ Hw4) as Sg2.
  unfold arc.live, arc.total in *.
  assert (Hdel : ∀ k it, delete key (arc.items c) !! k = Some it
                         → arc.key it = k).
  { intros k it Hit. apply lookup_delete_Some in Hit as [_ Hit]. by apply Hk. }
  unfold arc.remove.
  destruct (arc.Lookup (arc.t1 c) key) as [elt|] eqn:H1.
  - apply Lookup_Some in H1 as [-> Hin]. cbn.
    destruct (arc.items c !! key) as [item|] eqn:Hitem; last first.
    { apply not_elem_of_dom in Hitem. rewrite Hi in Hitem.
      destruct Hitem. apply elem_of_union. by left. }
    assert (HI' : arc.Inv
      (arc.with_b1
         (arc.with_items (arc.with_t1 c (arc.Remove_ (arc.t1 c) key key))
            (delete key (arc.items c)))
         (arc.PushFront (arc.b1 c) key))) by inv_leaf key.
    assert (Hlen : arc.Len_ (arc.Remove_ (arc.t1 c) key key)
                   + arc.Len_ (arc.PushFront (arc.b1 c) key)
                   ≤ arc.Len_ (arc.t1 c) + arc.Len_ (arc.b1 c)).
    { rewrite (Len_Remove _ _ Hw1 Hin).
      rewrite (Len_PushFront_notin (arc.b1 c) key) by sets. lia. }
    destruct (Base.evictedFunc (arc.base c)); cbn.
    + eexists _, _. split; [done|]. split_and!; [|done|done].
      by apply (Inv_with_base _ _ HI').
    + eexists _, _. split; [done|]. by split_and!.
  - apply Lookup_None in H1.
    destruct (arc.Lookup (arc.t2 c) key) as [elt|] eqn:H2.
    + apply Lookup_Some in H2 as [-> Hin]. cbn.
      destruct (arc.items c !! key) as [item|] eqn:Hitem; last first.
      { apply not_elem_of_dom in Hitem. rewrite Hi in Hitem.
        destruct Hitem. apply elem_of_union. by right. }
      assert (HI' : arc.Inv
        (arc.with_b2
           (arc.with_items (arc.with_t2 c (arc.Remove_ (arc.t2 c) key key))
              (delete key (arc.items c)))
           (arc.PushFront (arc.b2 c) key))) by inv_leaf key.
      destruct (Base.evictedFunc (arc.base c)); cbn.
      * eexists _, _. split; [done|]. split_and!; [|done|cbn; lia].
        by apply (Inv_with_base _ _ HI').
      * eexists _, _. split; [done|]. split_and!; [done|done|cbn; lia].
    + eexists _, _. split; [done|]. split_and!; [done|done|lia].
Qed.

Lemma Purge_spec c :
  arc.Inv c →
  arc.Inv (arc.Purge c)
  ∧ Base.size (arc.base (arc.Purge c)) = Base.size (arc.base c)
  ∧ arc.Len_ (arc.t1 (arc.Purge c)) + arc.Len_ (arc.b1 (arc.Purge c)) = 0.
Proof.
  intros [[Hsize _ _ _ Hpart] _ _]. unfold arc.Purge.
  destruct (Base.purgeVisitorFunc (arc.base c)); cbn; split_and!; try done.
  all: split; [split; [|split|..]|..]; cbn;
    try apply newARCList_wf; try set_solver; try done;
    unfold arc.live, arc.total, arc.Len_; cbn; lia.
Qed.

Lemma get_spec c w key onLoad :
  arc.Inv c →
  ∃ c' r, arc.get c w key onLoad = Some (c', r)
    ∧ arc.Inv c'
    ∧ Base.size (arc.base c') = Base.size (arc.base c)
    ∧ arc.read_step c key c'.
Proof.
  intros HI. unfold arc.get.
  destruct (getValue_spec c w key onLoad HI)
    as (c' & [v err] & -> & HI' & Hs & Hr). cbn.
  destruct err as [err|].
  - by eexists _, _.
  - destruct (Base.deserializeFunc (arc.base c')); by eexists _, _.
Qed.

Lemma getWithLoader_spec c w key isWait :
  arc.Inv c →
  ∃ c' r, arc.getWithLoader c w key isWait = Some (c', r)
    ∧ arc.Inv c'
    ∧ Base.size (arc.base c') = Base.size (arc.base c)
    ∧ arc.t1_b1_step c key c'.
Proof.
  intros HI. unfold arc.getWithLoader.
  destruct (Base.loaderExpireFunc (arc.base c)) as [loader|] eqn:Hld.
  2:{ eexists _, _. split; [done|]. split_and!; try done.
      apply t1_b1_step_refl. }
  unfold Base.load. cbn. rewrite Hld.
  set (c1 := arc.mkARC _ _ _ _ _ _ _).
  assert (HI1 : arc.Inv c1) by by apply (Inv_with_base c).
  assert (Hst1 : ∀ c', arc.t1_b1_step c1 key c' → arc.t1_b1_step c key c').
  { intros c'. by apply t1_b1_step_same. }
  destruct (loader w key) as [v expiration [e|]|r].
  - destruct isWait; cbn; eexists _, _; (split; [done|]);
      split_and!; try done; apply Hst1, t1_b1_step_refl.
  - destruct (set_spec c1 w key v HI1) as (c2 & err & -> & HI2 & Hs2 & Hst & _).
    cbn. destruct err as [err|].
    + destruct isWait; cbn; eexists _, _; (split; [done|]);
        split_and!; try done; by apply Hst1.
    + assert (HI3 : arc.Inv
        match expiration with
        | Some d =>
            arc.set_expiration c2 key (Add (Now (Base.clock (arc.base c2)) w) d)
        | None => c2
        end).
      { destruct expiration; [by apply Inv_set_expiration|done]. }
      assert (E3 : ∀ c3, c3 = match expiration with
        | Some d =>
            arc.set_expiration c2 key (Add (Now (Base.clock (arc.base c2)) w) d)
        | None => c2
        end → Base.size (arc.base c3) = Base.size (arc.base c)
              ∧ arc.t1_b1_step c key c3).
      { intros c3 ->. destruct expiration; cbn; split; try done;
          by apply Hst1. }
      destruct (E3 _ eq_refl) as [Hs3 Hst3].
      destruct isWait; cbn; eexists _, _; (split; [done|]); by split_and!.
  - destruct isWait; cbn; eexists _, _; (split; [done|]);
      split_and!; try done; apply Hst1, t1_b1_step_refl.
Qed.


Lemma SetWithExpire_spec c w key value d :
  arc.Inv c →
  ∃ c' err, arc.SetWithExpire c w key value d = Some (c', err)
    ∧ arc.Inv c'
    ∧ Base.size (arc.base c') = Base.size (arc.base c)
    ∧ arc.t1_b1_step c key c'.
Proof.
  intros HI. unfold arc.SetWithExpire.
  destruct (set_spec c w key value HI) as (c1 & err & -> & HI1 & Hs & Hst & _).
  cbn. destruct err as [err|]; eexists _, _; (split; [done|]).
  - by split_and!.
  - split_and!; [by apply Inv_set_expiration|done|done].
Qed.

Lemma read_through_spec c w key isWait :
  arc.Inv c →
  ∃ c' r,
    ('(c, (v, err)) ← arc.get c w key false;
     match err with
     | Some err =>
         if errors_Is err KeyNotFoundError
         then arc.getWithLoader c w key isWait
         else Some (c, (v, Some err))
     | None => Some (c, (v, None))
     end) = Some (c', r)
    ∧ arc.Inv c'
    ∧ Base.size (arc.base c') = Base.size (arc.base c)
    ∧ arc.t1_b1_step c key c'.
Proof.
  intros HI.
  destruct (get_spec c w key false HI) as (c1 & [v err] & -> & HI1 & Hs & Hr).
  cbn.
  assert (Hread : arc.t1_b1_step c key c1).
  { apply (t1_b1_step_read c key c1); [done..|]. apply t1_b1_step_refl. }
  destruct err as [err|]; [|by eexists _, _].
  destruct (errors_Is err KeyNotFoundError); [|by eexists _, _].
  destruct (getWithLoader_spec c1 w key isWait HI1)
    as (c2 & r & -> & HI2 & Hs2 & Hst).
  eexists _, _. split; [done|]. split_and!; [done|congruence|].
  by apply (t1_b1_step_read c key c1).
Qed.

Lemma exec_spec c wo :
  arc.Inv c →
  ∃ c', arc.exec c wo = Some c'
    ∧ arc.Inv c'
    ∧ Base.size (arc.base c') = Base.size (arc.base c)
    ∧ match arc.op_key wo.2 with
      | Some key => arc.t1_b1_step c key c'
      | None => arc.Len_ (arc.t1 c') + arc.Len_ (arc.b1 c')
                ≤ arc.Len_ (arc.t1 c) + arc.Len_ (arc.b1 c)
      end.
Proof.
  intros HI. destruct wo as [w [key v|key v d|key|key|key|]];
    unfold arc.exec; cbn.
  - destruct (set_spec c w key v HI) as (c' & err & Hset & ? & ? & ? & _).
    unfold arc.Set_. rewrite Hset. by eexists.
  - destruct (SetWithExpire_spec c w key v d HI) as (c' & err & -> & ? & ? & ?).
    by eexists.
  - destruct (read_through_spec c w key true HI) as (c' & r & Hg & ? & ? & ?).
    unfold arc.Get, arc.GetWithContext. rewrite Hg. by eexists.
  - destruct (read_through_spec c w key false HI) as (c' & r & Hg & ? & ? & ?).
    unfold arc.GetIFPresent, arc.GetIFPresentWithContext. rewrite Hg.
    by eexists.
  - destruct (remove_spec c key HI) as (c' & b & Hr & ? & ? & ?).
    unfold arc.Remove. rewrite Hr. by eexists.
  - destruct (Purge_spec c HI) as (? & ? & Hz). eexists. split; [done|].
    split_and!; try done. rewrite Hz.
    pose proof (Len_nonneg (arc.t1 c)). pose proof (Len_nonneg (arc.b1 c)).
    lia.
Qed.

Lemma run_spec c ops :
  arc.Inv c →
  ∃ c', arc.run c ops = Some c' ∧ arc.Inv c'
    ∧ Base.size (arc.base c') = Base.size (arc.base c).
Proof.
  revert c. induction ops as [|wo ops IH]; intros c HI; cbn.
  - by exists c.
  - destruct (exec_spec c wo HI) as (c1 & -> & HI1 & Hs1 & _). cbn.
    destruct (IH c1 HI1) as (c' & -> & HI' & Hs'). exists c'.
    split_and!; [done|done|congruence].
Qed.

Lemma Build_Inv (cb : Base.CacheBuilder K V) c0 :
  arc.Build cb = Some c0 → arc.Inv c0.
Proof.
  unfold arc.Build. case_match eqn:Hs; [done|]. intros [= <-].
  apply Inv_newARC. lia.
Qed.

Lemma reachable_Inv c : arc.reachable c → arc.Inv c.
Proof.
  intros (cb & c0 & ops & Hb & Hrun).
  destruct (run_spec c0 ops (Build_Inv _ _ Hb)) as (c' & Hrun' & HI & _).
  congruence.
Qed.

End ArcSteps.

(** ** The ARC engine: capacity, ghost hits, removal *)

Section ArcClaims.
Context {K V : Type} `{Countable K} `{ZeroValue V}.
Implicit Types (c : arc.ARC K V) (k key old : K) (w : World).

(** C2. For the ARC engine, any sequence of public operations from a
    freshly built cache runs to completion and leaves |T1| + |T2| <= size
    and |T1| + |T2| + |B1| + |B2| <= 2 * size. *)
Theorem arc_capacity_bounds (cb : Base.CacheBuilder K V) c0 ops :
  arc.Build cb = Some c0 →
  ∃ c, arc.run c0 ops = Some c
    ∧ arc.Len_ (arc.t1 c) + arc.Len_ (arc.t2 c) ≤ Base.cb_size cb
    ∧ arc.Len_ (arc.t1 c) + arc.Len_ (arc.t2 c)
      + arc.Len_ (arc.b1 c) + arc.Len_ (arc.b2 c) ≤ 2 * Base.cb_size cb.
Proof.
  intros Hb. pose proof (Build_Inv cb c0 Hb) as HI0.
  destruct (run_spec c0 ops HI0) as (c & Hrun & [[_ _ Hlive Htotal _] _ _] & Hs).
  assert (Hs0 : Base.size (arc.base c0) = Base.cb_size cb).
  { unfold arc.Build in Hb. case_match; [done|]. by injection Hb as <-. }
  exists c. unfold arc.live, arc.total in *. split; [done|]. lia.
Qed.

Lemma set_ok_unfold c w key value v' :
  Base.serialized (arc.base c) key value = (v', None) →
  arc.set c w key value =
    c' ← arc.place (arc.store_item c w key v') key;
    Some (Base.with_base c' (Base.call_added (arc.base c') key v'), None).
Proof. intros Hs. unfold arc.set. by rewrite Hs. Qed.

Lemma int_div_Some a b : 0 < b → arc.int_div a b = Some (Z.quot a b).
Proof. intros Hb. unfold arc.int_div. case_match; [lia|done]. Qed.

(** A ghost hit, spelled out: [place] on a key of [B1]. *)
Lemma place_b1 c key :
  arc.lists_inv c → key ∈ arc.keys (arc.b1 c) →
  ∃ cr, arc.replace
          (arc.setPart c
             (Z.min (Base.size (arc.base c))
                (arc.part c
                 + Z.max (Z.quot (arc.Len_ (arc.b2 c)) (arc.Len_ (arc.b1 c))) 1)))
          key = Some cr
    ∧ arc.part cr
      = (if arc.isCacheFull c
         then Z.min (Base.size (arc.base c))
                (arc.part c
                 + Z.max (Z.quot (arc.Len_ (arc.b2 c)) (arc.Len_ (arc.b1 c))) 1)
         else arc.part c)
    ∧ arc.wf_list (arc.b1 cr) ∧ arc.wf_list (arc.t2 cr)
    ∧ key ∈ arc.keys (arc.b1 cr) ∧ (key ∉ arc.keys (arc.t2 cr))
    ∧ arc.place c key
      = Some (arc.with_t2 (arc.with_b1 cr (arc.Remove_ (arc.b1 cr) key key))
                (arc.PushFront (arc.t2 cr) key)).
Proof.
  intros [Hsize [Hw1 Hw2 Hw3 Hw4 D12 D11 D1b2 D21 D22 Db] Hlive Htotal Hpart] Hin.
  pose proof (shape_of _ Hw1) as Sh1. pose proof (shape_of _ Hw2) as Sh2.
  pose proof (shape_of _ Hw3) as Sg1. pose proof (shape_of _ Hw4) as Sg2.
  pose proof (Len_pos_elem _ _ Hw3 Hin) as Hpos.
  set (p := Z.min _ _).
  destruct (setPart_fields c p) as (E1 & E2 & E3 & E4 & E5 & E6 & E7).
  rewrite <- E1 in Sh1 at 1. rewrite <- E2 in Sh2 at 1.
  rewrite <- E3 in Sg1 at 1. rewrite <- E4 in Sg2 at 1.
  destruct (replace_shapes (arc.setPart c p) key _ _ _ _ _ _ _ _
              Sh1 Sh2 Sg1 Sg2)
    as (cr & S1' & S2' & G1' & G2' & n1' & n2' & m1' & m2'
        & Hrep & Hs & Hp & Sh1' & Sh2' & Sg1' & Sg2' & Hcase);
    [done|done|by rewrite E6|].
  exists cr. split; [done|].
  destruct Sg1' as (Hwb1 & Hkb1 & _). destruct Sh2' as (Hwt2 & Hkt2 & _).
  assert (Hin' : key ∈ arc.keys (arc.b1 cr)).
  { rewrite Hkb1.
    destruct Hcase as [(_ & _ & _ & _ & -> & _)
                      |(_ & old & _ & [(_ & _ & -> & _)|(_ & _ & _ & _ & -> & _)])];
      set_solver. }
  assert (Hnin' : key ∉ arc.keys (arc.t2 cr)).
  { rewrite Hkt2.
    destruct Hcase as [(_ & _ & _ & -> & _)
                      |(_ & old & _ & [(_ & _ & _ & -> & _)|(_ & -> & _)])];
      set_solver. }
  split_and!; try done.
  { rewrite Hp. fold p. unfold arc.setPart. by destruct (arc.isCacheFull c). }
  unfold arc.place.
  rewrite (proj2 (Has_false _ _)) by set_solver.
  rewrite (proj2 (Has_false _ _)) by set_solver. cbn [orb].
  rewrite (proj2 (Lookup_Some _ _ _)) by done.
  rewrite int_div_Some by done. cbn. fold p. by rewrite Hrep.
Qed.


(** The same on a key of [B2]. *)
Lemma place_b2 c key :
  arc.lists_inv c → key ∈ arc.keys (arc.b2 c) →
  ∃ cr, arc.replace
          (arc.setPart c
             (Z.max 0
                (arc.part c
                 - Z.max (Z.quot (arc.Len_ (arc.b1 c)) (arc.Len_ (arc.b2 c))) 1)))
          key = Some cr
    ∧ arc.part cr
      = (if arc.isCacheFull c
         then Z.max 0
                (arc.part c
                 - Z.max (Z.quot (arc.Len_ (arc.b1 c)) (arc.Len_ (arc.b2 c))) 1)
         else arc.part c)
    ∧ arc.wf_list (arc.b2 cr) ∧ arc.wf_list (arc.t2 cr)
    ∧ key ∈ arc.keys (arc.b2 cr) ∧ (key ∉ arc.keys (arc.t2 cr))
    ∧ arc.place c key
      = Some (arc.with_t2 (arc.with_b2 cr (arc.Remove_ (arc.b2 cr) key key))
                (arc.PushFront (arc.t2 cr) key)).
Proof.
  intros [Hsize [Hw1 Hw2 Hw3 Hw4 D12 D11 D1b2 D21 D22 Db] Hlive Htotal Hpart] Hin.
  pose proof (shape_of _ Hw1) as Sh1. pose proof (shape_of _ Hw2) as Sh2.
  pose proof (shape_of _ Hw3) as Sg1. pose proof (shape_of _ Hw4) as Sg2.
  pose proof (Len_pos_elem _ _ Hw4 Hin) as Hpos.
  set (p := Z.max _ _).
  destruct (setPart_fields c p) as (E1 & E2 & E3 & E4 & E5 & E6 & E7).
  rewrite <- E1 in Sh1 at 1. rewrite <- E2 in Sh2 at 1.
  rewrite <- E3 in Sg1 at 1. rewrite <- E4 in Sg2 at 1.
  destruct (replace_shapes (arc.setPart c p) key _ _ _ _ _ _ _ _
              Sh1 Sh2 Sg1 Sg2)
    as (cr & S1' & S2' & G1' & G2' & n1' & n2' & m1' & m2'
        & Hrep & Hs & Hp & Sh1' & Sh2' & Sg1' & Sg2' & Hcase);
    [done|done|by rewrite E6|].
  exists cr. split; [done|].
  destruct Sg2' as (Hwb2 & Hkb2 & _). destruct Sh2' as (Hwt2 & Hkt2 & _).
  assert (Hin' : key ∈ arc.keys (arc.b2 cr)).
  { rewrite Hkb2.
    destruct Hcase as [(_ & _ & _ & _ & _ & -> & _)
                      |(_ & old & _ & [(_ & _ & _ & _ & -> & _)|(_ & _ & -> & _)])];
      set_solver. }
  assert (Hnin' : key ∉ arc.keys (arc.t2 cr)).
  { rewrite Hkt2.
    destruct Hcase as [(_ & _ & _ & -> & _)
                      |(_ & old & _ & [(_ & _ & _ & -> & _)|(_ & -> & _)])];
      set_solver. }
  split_and!; try done.
  { rewrite Hp. fold p. unfold arc.setPart. by destruct (arc.isCacheFull c). }
  unfold arc.place.
  rewrite (proj2 (Has_false _ _)) by set_solver.
  rewrite (proj2 (Has_false _ _)) by set_solver. cbn [orb].
  rewrite (proj2 (Lookup_None _ _)) by set_solver.
  rewrite (proj2 (Lookup_Some _ _ _)) by done.
  rewrite int_div_Some by done. cbn. fold p. by rewrite Hrep.
Qed.

Lemma store_item_lists_inv c w key v :
  arc.Inv c → arc.lists_inv (arc.store_item c w key v).
Proof.
  intros [Hl Hi Hk].
  destruct (store_item_spec c w key v Hi Hk)
    as (E1 & E2 & E3 & E4 & E5 & E6 & _).
  apply (lists_inv_same c); try done. by rewrite E6.
Qed.


(** A ghost hit, as [set] performs it. *)
Lemma set_ghost_hit c w key value v' :
  arc.Inv c →
  Base.serialized (arc.base c) key value = (v', None) →
  (key ∈ arc.keys (arc.b1 c) →
   let p := Z.min (Base.size (arc.base c))
              (arc.part c
               + Z.max 1 (arc.Len_ (arc.b2 c) / arc.Len_ (arc.b1 c))) in
   ∃ cr c',
     arc.replace (arc.setPart (arc.store_item c w key v') p) key = Some cr
     ∧ arc.set c w key value = Some (c', None)
     ∧ arc.part c' = (if arc.isCacheFull c then p else arc.part c)
     ∧ arc.t1 c' = arc.t1 cr ∧ arc.b2 c' = arc.b2 cr
     ∧ arc.b1 c' = arc.Remove_ (arc.b1 cr) key key
     ∧ (key ∉ arc.keys (arc.b1 c'))
     ∧ arc.t2 c' = arc.PushFront (arc.t2 cr) key
     ∧ head (arc.l (arc.t2 c')) = Some key)
  ∧ (key ∈ arc.keys (arc.b2 c) →
     let p := Z.max 0
                (arc.part c
                 - Z.max 1 (arc.Len_ (arc.b1 c) / arc.Len_ (arc.b2 c))) in
     ∃ cr c',
       arc.replace (arc.setPart (arc.store_item c w key v') p) key = Some cr
       ∧ arc.set c w key value = Some (c', None)
       ∧ arc.part c' = (if arc.isCacheFull c then p else arc.part c)
       ∧ arc.t1 c' = arc.t1 cr ∧ arc.b1 c' = arc.b1 cr
       ∧ arc.b2 c' = arc.Remove_ (arc.b2 cr) key key
       ∧ (key ∉ arc.keys (arc.b2 c'))
       ∧ arc.t2 c' = arc.PushFront (arc.t2 cr) key
       ∧ head (arc.l (arc.t2 c')) = Some key).
Proof.
  intros HI Hser. pose proof HI as [Hl Hi Hk].
  pose proof (store_item_lists_inv c w key v' HI) as Hls.
  destruct (store_item_spec c w key v' Hi Hk)
    as (E1 & E2 & E3 & E4 & E5 & E6 & _).
  assert (Hfull : arc.isCacheFull (arc.store_item c w key v')
                  = arc.isCacheFull c).
  { unfold arc.isCacheFull. by rewrite E1, E2, E6. }
  pose proof (Len_nonneg (arc.b1 c)) as M1.
  pose proof (Len_nonneg (arc.b2 c)) as M2.
  rewrite (set_ok_unfold _ _ _ _ _ Hser).
  split; intros Hin p.
  - assert (Hpos : 0 < arc.Len_ (arc.b1 c))
      by (eapply Len_pos_elem; [apply Hl|done]).
    destruct (place_b1 (arc.store_item c w key v') key Hls)
      as (cr & Hrep & Hp & Hwb & Hwt & Hinb & Hnint & Hplace);
      [by rewrite E3|].
    rewrite ?E3, ?E4, ?E5, ?E6 in Hrep. rewrite ?E3, ?E4, ?E5, ?E6, Hfull in Hp.
    rewrite Z.quot_div_nonneg in Hrep, Hp by lia.
    rewrite (Z.max_comm _ 1) in Hrep, Hp.
    exists cr. eexists. rewrite Hplace. cbn. split_and!; try done; cbn.
    + set_solver.
    + by apply PushFront_head.
  - assert (Hpos : 0 < arc.Len_ (arc.b2 c))
      by (eapply Len_pos_elem; [apply Hl|done]).
    destruct (place_b2 (arc.store_item c w key v') key Hls)
      as (cr & Hrep & Hp & Hwb & Hwt & Hinb & Hnint & Hplace);
      [by rewrite E4|].
    rewrite ?E3, ?E4, ?E5, ?E6 in Hrep. rewrite ?E3, ?E4, ?E5, ?E6, Hfull in Hp.
    rewrite Z.quot_div_nonneg in Hrep, Hp by lia.
    rewrite (Z.max_comm _ 1) in Hrep, Hp.
    exists cr. eexists. rewrite Hplace. cbn. split_and!; try done; cbn.
    + set_solver.
    + by apply PushFront_head.
Qed.

(** C5. For the ARC engine, a Set of a key found in B1 moves the target to
    min(size, p + max(1, |B2| / |B1|)), and a Set of a key found in B2 to
    max(0, p - max(1, |B1| / |B2|)); REPLACE then runs, the key leaves its
    ghost list and becomes the front of T2. The new target takes effect only
    when |T1| + |T2| = size; otherwise p is unchanged. *)
Theorem ghost_hit_adapts_target c w key value v' :
  arc.Inv c →
  Base.serialized (arc.base c) key value = (v', None) →
  (key ∈ arc.keys (arc.b1 c) →
   let p := Z.min (Base.size (arc.base c))
              (arc.part c
               + Z.max 1 (arc.Len_ (arc.b2 c) / arc.Len_ (arc.b1 c))) in
   ∃ cr c',
     arc.replace (arc.setPart (arc.store_item c w key v') p) key = Some cr
     ∧ arc.set c w key value = Some (c', None)
     ∧ arc.part c' = (if arc.isCacheFull c then p else arc.part c)
     ∧ arc.t1 c' = arc.t1 cr ∧ arc.b2 c' = arc.b2 cr
     ∧ arc.b1 c' = arc.Remove_ (arc.b1 cr) key key
     ∧ (key ∉ arc.keys (arc.b1 c'))
     ∧ arc.t2 c' = arc.PushFront (arc.t2 cr) key
     ∧ head (arc.l (arc.t2 c')) = Some key)
  ∧ (key ∈ arc.keys (arc.b2 c) →
     let p := Z.max 0
                (arc.part c
                 - Z.max 1 (arc.Len_ (arc.b1 c) / arc.Len_ (arc.b2 c))) in
     ∃ cr c',
       arc.replace (arc.setPart (arc.store_item c w key v') p) key = Some cr
       ∧ arc.set c w key value = Some (c', None)
       ∧ arc.part c' = (if arc.isCacheFull c then p else arc.part c)
       ∧ arc.t1 c' = arc.t1 cr ∧ arc.b1 c' = arc.b1 cr
       ∧ arc.b2 c' = arc.Remove_ (arc.b2 cr) key key
       ∧ (key ∉ arc.keys (arc.b2 c'))
       ∧ arc.t2 c' = arc.PushFront (arc.t2 cr) key
       ∧ head (arc.l (arc.t2 c')) = Some key).
Proof. apply set_ghost_hit. Qed.

Lemma remove_live c key :
  arc.Inv c → key ∈ arc.keys (arc.t1 c) ∪ arc.keys (arc.t2 c) →
  ∃ c1, arc.remove c key = Some (c1, true)
    ∧ arc.Inv c1
    ∧ arc.items c1 = delete key (arc.items c)
    ∧ Base.serializeFunc (arc.base c1) = Base.serializeFunc (arc.base c)
    ∧ (key ∈ arc.keys (arc.t1 c) →
       arc.t1 c1 = arc.Remove_ (arc.t1 c) key key
       ∧ arc.b1 c1 = arc.PushFront (arc.b1 c) key)
    ∧ (key ∈ arc.keys (arc.t2 c) →
       arc.t2 c1 = arc.Remove_ (arc.t2 c) key key
       ∧ arc.b2 c1 = arc.PushFront (arc.b2 c) key).
Proof.
  intros HI Hin.
  destruct (remove_spec c key HI) as (c1 & b & Hrem & HI1 & _).
  pose proof HI as [[_ [_ _ _ _ D12 _ _ _ _ _] _ _ _] Hi _].
  assert (Hitem : is_Some (arc.items c !! key)).
  { apply elem_of_dom. by rewrite Hi. }
  destruct Hitem as [item Hitem].
  revert Hrem. unfold arc.remove.
  destruct (arc.Lookup (arc.t1 c) key) as [elt|] eqn:H1.
  - apply Lookup_Some in H1 as [-> Hin1]. cbn. rewrite Hitem. cbn.
    destruct (Base.evictedFunc (arc.base c)); cbn; intros [= Hc1 <-];
      exists c1; (split; [by rewrite Hc1|]); (split; [done|]);
      subst c1; cbn; split_and!; try done; set_solver.
  - apply Lookup_None in H1.
    destruct (arc.Lookup (arc.t2 c) key) as [elt|] eqn:H2.
    + apply Lookup_Some in H2 as [-> Hin2]. cbn. rewrite Hitem. cbn.
      destruct (Base.evictedFunc (arc.base c)); cbn; intros [= Hc1 <-];
        exists c1; (split; [by rewrite Hc1|]); (split; [done|]);
        subst c1; cbn; split_and!; try done; set_solver.
    + apply Lookup_None in H2. set_solver.
Qed.

(** C9. For the ARC engine and a key of T1 (of T2), Remove returns true,
    deletes the entry and pushes the key onto B1 (onto B2); a Set of that key
    right after takes the ghost path and puts the key at the front of T2, not
    into T1. *)
Theorem remove_then_set_rehits_ghost c w key value v' :
  arc.Inv c →
  Base.serialized (arc.base c) key value = (v', None) →
  (key ∈ arc.keys (arc.t1 c) →
   ∃ c1 c2,
     arc.Remove c key = Some (c1, true)
     ∧ arc.items c1 !! key = None
     ∧ head (arc.l (arc.b1 c1)) = Some key
     ∧ arc.Set_ c1 w key value = Some (c2, None)
     ∧ head (arc.l (arc.t2 c2)) = Some key
     ∧ (key ∉ arc.keys (arc.t1 c2)))
  ∧ (key ∈ arc.keys (arc.t2 c) →
     ∃ c1 c2,
       arc.Remove c key = Some (c1, true)
       ∧ arc.items c1 !! key = None
       ∧ head (arc.l (arc.b2 c1)) = Some key
       ∧ arc.Set_ c1 w key value = Some (c2, None)
       ∧ head (arc.l (arc.t2 c2)) = Some key
       ∧ (key ∉ arc.keys (arc.t1 c2))).
Proof.
  intros HI Hser.
  assert (Hafter : ∀ c1,
    arc.Inv c1 →
    Base.serializeFunc (arc.base c1) = Base.serializeFunc (arc.base c) →
    key ∈ arc.keys (arc.b1 c1) ∪ arc.keys (arc.b2 c1) →
    ∃ c2, arc.Set_ c1 w key value = Some (c2, None)
      ∧ head (arc.l (arc.t2 c2)) = Some key
      ∧ key ∉ arc.keys (arc.t1 c2)).
  { intros c1 HI1 Hsf Hghost.
    assert (Hser1 : Base.serialized (arc.base c1) key value = (v', None)).
    { revert Hser. unfold Base.serialized. by rewrite Hsf. }
    destruct (set_ghost_hit c1 w key value v' HI1 Hser1) as [Hb1 Hb2].
    destruct (set_spec c1 w key value HI1)
      as (c2 & err & Hset & HI2 & _ & _ & _).
    assert (Hhead : ∃ c2', arc.set c1 w key value = Some (c2', None)
                           ∧ head (arc.l (arc.t2 c2')) = Some key).
    { apply elem_of_union in Hghost as [Hin|Hin].
      - destruct (Hb1 Hin) as (cr & c2' & _ & ? & _ & _ & _ & _ & _ & _ & ?).
        by exists c2'.
      - destruct (Hb2 Hin) as (cr & c2' & _ & ? & _ & _ & _ & _ & _ & _ & ?).
        by exists c2'. }
    destruct Hhead as (c2' & Hset' & Hhead).
    rewrite Hset in Hset'. injection Hset' as -> ->.
    exists c2'. split_and!; [done|done|].
    destruct HI2 as [[_ [_ [_ Hk2] _ _ D12 _ _ _ _ _] _ _ _] _ _].
    assert (key ∈ arc.keys (arc.t2 c2')).
    { apply Hk2. destruct (arc.l (arc.t2 c2')) as [|x xs]; [done|].
      injection Hhead as ->. apply elem_of_cons. by left. }
    set_solver. }
  pose proof HI as [[_ [_ _ Hwb1 Hwb2 _ _ _ _ _ _] _ _ _] _ _].
  split; intros Hin.
  - destruct (remove_live c key HI) as (c1 & Hrem & HI1 & Hit & Hsf & Ht1 & _);
      [set_solver|].
    destruct (Ht1 Hin) as [Et1 Eb1].
    destruct (Hafter c1 HI1 Hsf) as (c2 & ? & ? & ?).
    { rewrite Eb1, keys_PushFront. set_solver. }
    exists c1, c2. split_and!; try done.
    + rewrite Hit. apply lookup_delete_eq.
    + rewrite Eb1. by apply PushFront_head.
  - destruct (remove_live c key HI) as (c1 & Hrem & HI1 & Hit & Hsf & _ & Ht2);
      [set_solver|].
    destruct (Ht2 Hin) as [Et2 Eb2].
    destruct (Hafter c1 HI1 Hsf) as (c2 & ? & ? & ?).
    { rewrite Eb2, keys_PushFront. set_solver. }
    exists c1, c2. split_and!; try done.
    + rewrite Hit. apply lookup_delete_eq.
    + rewrite Eb2. by apply PushFront_head.
Qed.
End ArcClaims.

(** ** The LRU engine *)

Section LruFacts.
Context {K V : Type} `{Countable K} `{ZeroValue V}.
Implicit Types (c : lru.LRUCache K V) (k key : K) (w : World).

Lemma lru_wf_new (cb : Base.CacheBuilder K V) : lru.wf (lru.newLRUCache cb).
Proof.
  split; cbn.
  - constructor.
  - intros k. rewrite elem_of_nil, lookup_empty. split; [done|].
    by intros [? ?].
  - intros k it. by rewrite lookup_empty.
Qed.

Lemma lru_wf_with_base c b : lru.wf c → lru.wf (Base.with_base c b).
Proof. by intros []. Qed.

Lemma lru_wf_ext c c' :
  lru.items c' = lru.items c → lru.evictList c' = lru.evictList c →
  lru.wf c → lru.wf c'.
Proof. intros Hi Hl [Hnd Hix Hk]. split; rewrite ?Hi, ?Hl; done. Qed.

Lemma lru_wf_removeElement c e :
  lru.wf c → lru.wf (lru.removeElement c e).
Proof.
  intros [Hnd Hix Hk]. unfold lru.removeElement. cbn.
  destruct (lru.items c !! e) as [entry|] eqn:He; cbn.
  - pose proof (Hk _ _ He) as Hke. rewrite Hke. split; cbn.
    + by apply NoDup_list_Remove.
    + intros k. rewrite elem_of_list_Remove by done.
      rewrite Hix, lookup_delete_is_Some. naive_solver.
    + intros k it Hit. apply lookup_delete_Some in Hit as [_ Hit].
      by apply Hk.
  - assert (He' : e ∉ lru.evictList c).
    { rewrite Hix, He. by intros [? ?]. }
    rewrite list_Remove_notin by done. by split.
Qed.

Lemma lru_wf_evict c n : lru.wf c → lru.wf (lru.evict c n).
Proof.
  revert c. induction n as [|n IH]; intros c Hwf; cbn; [done|].
  destruct (last (lru.evictList c)); [|done].
  by apply IH, lru_wf_removeElement.
Qed.

Lemma lru_wf_set_expiration c key t :
  lru.wf c → lru.wf (lru.set_expiration c key t).
Proof.
  intros [Hnd Hix Hk]. split; cbn; [done|..].
  - intros k. rewrite Hix, lookup_alter. case_decide; [subst|done].
    by rewrite fmap_is_Some.
  - intros k it. rewrite lookup_alter. case_decide as Hkk; [|apply Hk].
    subst k. intros Hit. apply fmap_Some in Hit as (it0 & Hit0 & ->).
    cbn. by apply Hk.
Qed.

Lemma lru_evict_absent c n key :
  lru.items c !! key = None → lru.items (lru.evict c n) !! key = None.
Proof.
  revert c. induction n as [|n IH]; intros c Hnone; cbn; [done|].
  destruct (last (lru.evictList c)) as [ent|]; [|done]. apply IH.
  unfold lru.removeElement. cbn.
  destruct (lru.items c !! ent) as [entry|]; cbn; [|done].
  destruct (decide (lru.key entry = key)) as [->|];
    [apply lookup_delete_eq | by rewrite lookup_delete_ne].
Qed.

Lemma lru_wf_push c key item :
  lru.wf c → lru.items c !! key = None → lru.key item = key →
  lru.wf (lru.with_items
            (lru.with_evictList c (list_PushFront key (lru.evictList c)))
            (<[key:=item]> (lru.items c))).
Proof.
  intros [Hnd Hix Hk] Hnone Hkey. split; cbn; unfold list_PushFront.
  - apply NoDup_cons. split; [|done]. rewrite Hix, Hnone. by intros [? ?].
  - intros k. rewrite elem_of_cons, Hix, lookup_insert_is_Some.
    destruct (decide (key = k)); naive_solver.
  - intros k it'. rewrite lookup_insert. case_decide; [|apply Hk].
    subst k. by intros [= <-].
Qed.

Lemma lru_wf_set c w key value :
  lru.wf c → lru.wf (lru.set c w key value).1.
Proof.
  intros Hwf. unfold lru.set.
  destruct (Base.serialized (lru.base c) key value) as [v' [e|]]; [done|].
  assert (Hfin : ∀ c1 (t : Duration → Time), lru.wf c1 →
    lru.wf match Base.expiration (lru.base c1) with
           | Some d => lru.set_expiration c1 key (t d)
           | None => c1
           end).
  { intros c1 t Hwf1. destruct (Base.expiration (lru.base c1)); [|done].
    by apply lru_wf_set_expiration. }
  cbn. apply lru_wf_with_base.
  destruct (lru.items c !! key) as [it|] eqn:Hit.
  - apply (Hfin _ (λ d, Add _ d)).
    destruct Hwf as [Hnd Hix Hk]. split; cbn.
    + by apply NoDup_list_MoveToFront.
    + intros k. rewrite elem_of_list_MoveToFront by done.
      rewrite Hix, lookup_insert_is_Some.
      destruct (decide (key = k)) as [<-|]; [|naive_solver].
      rewrite Hit. naive_solver.
    + intros k it'. rewrite lookup_insert. case_decide; [|apply Hk].
      subst k. intros [= <-]. cbn. by apply Hk.
  - apply (Hfin _ (λ d, Add _ d)).
    destruct (_ >=? _).
    + apply lru_wf_push;
        [apply (lru_wf_evict c 1 Hwf) | apply (lru_evict_absent c 1 key Hit)
        | done].
    + by apply lru_wf_push.
Qed.

Lemma lru_wf_counted c (onLoad : bool) (f : Base.baseCache K V → Base.baseCache K V) :
  lru.wf c →
  lru.wf (if onLoad then c else Base.with_base c (f (lru.base c))).
Proof. intros Hwf. destruct onLoad; [done|]. by apply lru_wf_with_base. Qed.

Lemma lru_wf_getValue c w key onLoad :
  lru.wf c → lru.wf (lru.getValue c w key onLoad).1.
Proof.
  intros Hwf. unfold lru.getValue.
  destruct (lru.items c !! key) as [it|] eqn:Hit.
  - destruct (lru.IsExpired it None w); cbn [negb fst].
    + apply (lru_wf_counted _ _ Base.incr_miss).
      by apply lru_wf_removeElement.
    + apply (lru_wf_counted _ _ Base.incr_hit).
      destruct Hwf as [Hnd Hix Hk]. split; cbn; [|intros k|done].
      * by apply NoDup_list_MoveToFront.
      * by rewrite elem_of_list_MoveToFront.
  - apply (lru_wf_counted _ _ Base.incr_miss Hwf).
Qed.

Lemma lru_wf_remove c key : lru.wf c → lru.wf (lru.remove c key).1.
Proof.
  intros Hwf. unfold lru.remove. destruct (lru.items c !! key); cbn; [|done].
  by apply lru_wf_removeElement.
Qed.

Lemma lru_wf_Purge c : lru.wf (lru.Purge c).
Proof.
  unfold lru.Purge, lru.init. split; cbn.
  - constructor.
  - intros k. rewrite elem_of_nil, lookup_empty. split; [done|].
    by intros [? ?].
  - intros k it. by rewrite lookup_empty.
Qed.

Lemma lru_wf_SetWithExpire c w key value d :
  lru.wf c → lru.wf (lru.SetWithExpire c w key value d).1.
Proof.
  intros Hwf. unfold lru.SetWithExpire.
  pose proof (lru_wf_set c w key value Hwf) as Hwf'.
  destruct (lru.set c w key value) as [c' [e|]]; [done|].
  by apply lru_wf_set_expiration.
Qed.

Lemma lru_wf_get c w key onLoad :
  lru.wf c → lru.wf (lru.get c w key onLoad).1.
Proof.
  intros Hwf. unfold lru.get.
  pose proof (lru_wf_getValue c w key onLoad Hwf) as Hwf'.
  destruct (lru.getValue c w key onLoad) as [c' [v [e|]]]; [done|].
  by destruct (Base.deserializeFunc (lru.base c')).
Qed.

Lemma lru_wf_getWithLoader c w key isWait :
  lru.wf c →
  ∃ c' r, lru.getWithLoader c w key isWait = Some (c', r) ∧ lru.wf c'.
Proof.
  intros Hwf. unfold lru.getWithLoader, Base.load.
  destruct (Base.loaderExpireFunc (lru.base c)) as [loader|] eqn:Hld;
    [|by eexists _, _].
  cbn. rewrite Hld.
  destruct (loader w key) as [v expiration [e|]|r]; cbn.
  - destruct isWait; cbn; eexists _, _; (split; [done|]);
      by apply (lru_wf_with_base c).
  - pose proof (lru_wf_set
      (Base.with_base c (Base.record (lru.base c) (Loader key))) w key v
      (lru_wf_with_base _ _ Hwf)) as Hwf'.
    cbn in Hwf'.
    destruct (lru.set _ w key v) as [c2 [err|]]; cbn.
    + destruct isWait; cbn; by eexists _, _.
    + destruct isWait, expiration; cbn; eexists _, _; (split; [done|]);
        try done; by apply lru_wf_set_expiration.
  - destruct isWait; cbn; eexists _, _; (split; [done|]);
      by apply (lru_wf_with_base c).
Qed.

(** Every public operation of the LRU engine runs to completion and keeps
    the state well formed. *)
Lemma lru_wf_Get c w key :
  lru.wf c → ∃ c' r, lru.Get c w key = Some (c', r) ∧ lru.wf c'.
Proof.
  intros Hwf. unfold lru.Get, lru.GetWithContext.
  pose proof (lru_wf_get c w key false Hwf) as Hwf'.
  destruct (lru.get c w key false) as [c' [v [e|]]]; [|by eexists _, _].
  destruct (errors_Is e KeyNotFoundError); [|by eexists _, _].
  by apply lru_wf_getWithLoader.
Qed.

Lemma lru_wf_GetIFPresent c w key :
  lru.wf c → ∃ c' r, lru.GetIFPresent c w key = Some (c', r) ∧ lru.wf c'.
Proof.
  intros Hwf. unfold lru.GetIFPresent, lru.GetIFPresentWithContext.
  pose proof (lru_wf_get c w key false Hwf) as Hwf'.
  destruct (lru.get c w key false) as [c' [v [e|]]]; [|by eexists _, _].
  destruct (errors_Is e KeyNotFoundError); [|by eexists _, _].
  by apply lru_wf_getWithLoader.
Qed.
End LruFacts.

(** ** Calls to user functions along the operations *)

Section Calls.
Context {K V : Type}.
Implicit Types (b : Base.baseCache K V).

#[global] Instance calls_grow_preorder :
  PreOrder (Base.calls_grow (K:=K) (V:=V)).
Proof.
  split.
  - intros b. by unfold Base.calls_grow.
  - intros b1 b2 b3. unfold Base.calls_grow. apply transitivity.
Qed.




Lemma loaderExpireFunc_evicted b k v :
  Base.loaderExpireFunc (Base.call_evicted b k v) = Base.loaderExpireFunc b.
Proof. unfold Base.call_evicted. by destruct (Base.evictedFunc b). Qed.

Lemma stats_evicted b k v :
  Base.stats_ (Base.call_evicted b k v) = Base.stats_ b.
Proof. unfold Base.call_evicted. by destruct (Base.evictedFunc b). Qed.

Lemma calls_evicted b k v :
  Base.calls (Base.call_evicted b k v)
  = Base.calls b ++ (if Base.evictedFunc b then [Evicted k v] else []).
Proof.
  unfold Base.call_evicted. destruct (Base.evictedFunc b); cbn; [done|].
  by rewrite app_nil_r.
Qed.

End Calls.

Section LruReads.
Context {K V : Type} `{Countable K} `{ZeroValue V}.
Implicit Types (c : lru.LRUCache K V) (k key : K) (w : World).




(** The read of an expired entry. *)
Lemma lru_getValue_expired c w key it :
  lru.wf c → lru.items c !! key = Some it →
  lru.IsExpired it None w = true →
  ∃ c1, lru.getValue c w key false = (c1, (zero, Some KeyNotFoundError))
    ∧ lru.items c1 = delete key (lru.items c)
    ∧ lru.evictList c1 = list_Remove key (lru.evictList c)
    ∧ Base.stats_ (lru.base c1) = IncrMissCount (Base.stats_ (lru.base c))
    ∧ Base.calls (lru.base c1)
      = Base.calls (lru.base c)
        ++ (if Base.evictedFunc (lru.base c)
            then [Evicted key (lru.value it)] else [])
    ∧ Base.loaderExpireFunc (lru.base c1)
      = Base.loaderExpireFunc (lru.base c)
    ∧ lru.wf c1.
Proof.
  intros Hwf Hit Hexp. pose proof (lru.wf_key _ Hwf _ _ Hit) as Hkey.
  eexists. split.
  { unfold lru.getValue. rewrite Hit, Hexp. cbn [negb]. reflexivity. }
  unfold lru.removeElement. cbn. rewrite Hit. cbn. rewrite Hkey.
  split_and!; try done.
  - by rewrite stats_evicted.
  - by rewrite calls_evicted.
  - by rewrite loaderExpireFunc_evicted.
  - apply (lru_wf_ext (lru.removeElement c key)); [| |by apply lru_wf_removeElement];
      unfold lru.removeElement; cbn; rewrite Hit; cbn; by rewrite ?Hkey.
Qed.


End LruReads.

Section ArcReads.
Context {K V : Type} `{Countable K} `{ZeroValue V}.
Implicit Types (c : arc.ARC K V) (k key : K) (w : World).








(** The read of an expired entry. *)
Lemma arc_getValue_expired c w key it :
  arc.Inv c → arc.items c !! key = Some it →
  arc.IsExpired it None w = true →
  ∃ c1, arc.getValue c w key false
        = Some (c1, (zero, Some KeyNotFoundError))
    ∧ arc.items c1 = delete key (arc.items c)
    ∧ (key ∉ arc.keys (arc.t1 c1) ∪ arc.keys (arc.t2 c1))
    ∧ key ∈ arc.keys (arc.b1 c1) ∪ arc.keys (arc.b2 c1)
    ∧ Base.stats_ (arc.base c1) = IncrMissCount (Base.stats_ (arc.base c))
    ∧ Base.calls (arc.base c1)
      = Base.calls (arc.base c)
        ++ (if Base.evictedFunc (arc.base c)
            then [Evicted key (arc.value it)] else [])
    ∧ Base.loaderExpireFunc (arc.base c1)
      = Base.loaderExpireFunc (arc.base c)
    ∧ arc.Inv c1.
Proof.
  intros HI Hit Hexp.
  destruct (getValue_spec c w key false HI) as (c1 & r & Hg & HI1 & _ & _).
  pose proof HI as [[_ [_ _ _ _ D12 _ _ _ _ _] _ _ _] Hi Hk].
  pose proof (Hk _ _ Hit) as Hkey.
  assert (Hin : key ∈ arc.keys (arc.t1 c) ∪ arc.keys (arc.t2 c)).
  { rewrite <- Hi. apply elem_of_dom. by eexists. }
  exists c1. revert Hg. unfold arc.getValue, arc.getValue_t1.
  destruct (arc.Lookup (arc.t1 c) key) as [elt|] eqn:H1.
  - apply Lookup_Some in H1 as [-> Hin1]. cbn. rewrite Hit. cbn.
    rewrite Hexp. cbn. unfold arc.getValue_t2. cbn.
    rewrite (proj2 (Lookup_None _ _)) by set_solver. cbn.
    intros [= <- <-]. split; [done|]. cbn in *. rewrite Hkey in *.
    split_and!; try done.
    + set_solver.
    + rewrite keys_PushFront. set_solver.
    + by rewrite stats_evicted.
    + by rewrite calls_evicted.
    + by rewrite loaderExpireFunc_evicted.
  - apply Lookup_None in H1. cbn. unfold arc.getValue_t2.
    rewrite (proj2 (Lookup_Some (arc.t2 c) key key)) by set_solver. cbn.
    rewrite Hit. cbn. rewrite Hexp. cbn.
    intros [= <- <-]. split; [done|]. cbn in *. rewrite Hkey in *.
    split_and!; try done.
    + set_solver.
    + rewrite keys_PushFront. set_solver.
    + by rewrite stats_evicted.
    + by rewrite calls_evicted.
    + by rewrite loaderExpireFunc_evicted.
Qed.


End ArcReads.

(** ** Reads: expired entries, loader panics, deserialize errors *)

Section ReadClaims.
Context {K V : Type} `{Countable K} `{ZeroValue V}.

Lemma errors_Is_refl (e : error) : errors_Is e e = true.
Proof. destruct e; cbn; by rewrite decide_True. Qed.



(** C7. When the loader panics during a load that a Get triggers, the panic
    is caught: Get returns the error "loader panics: <reason>" instead of
    panicking, and no entry is stored for the key. Both engines. *)
Theorem loader_panic_is_returned
    (cl : lru.LRUCache K V) (ca : arc.ARC K V) (w : World) (key : K)
    (loader : World → K → LoaderResult V) (r : string) :
  loader w key = LoaderPanic r →
  (lru.wf cl →
   Base.loaderExpireFunc (lru.base cl) = Some loader →
   (∀ it, lru.items cl !! key = Some it → lru.IsExpired it None w = true) →
   ∃ c', lru.Get cl w key
         = Some (c', (zero,
                      Some (errorString ("loader panics: " +:+ r))))
     ∧ lru.items c' !! key = None)
  ∧ (arc.Inv ca →
     Base.loaderExpireFunc (arc.base ca) = Some loader →
     (∀ it, arc.items ca !! key = Some it → arc.IsExpired it None w = true) →
     ∃ c', arc.Get ca w key
           = Some (c', (zero,
                        Some (errorString ("loader panics: " +:+ r))))
       ∧ arc.items c' !! key = None).
Proof.
  intros Hpanic. split; intros Hwf Hld Hmiss.
  - assert (Hg : ∃ c1, lru.get cl w key false
                       = (c1, (zero, Some KeyNotFoundError))
                 ∧ lru.items c1 !! key = None
                 ∧ Base.loaderExpireFunc (lru.base c1) = Some loader).
    { destruct (lru.items cl !! key) as [it|] eqn:Hit.
      - destruct (lru_getValue_expired cl w key it Hwf Hit (Hmiss _ eq_refl))
          as (c1 & Hg & Hi & _ & _ & _ & Hld1 & _).
        exists c1. unfold lru.get. rewrite Hg. split_and!; [done| |congruence].
        rewrite Hi. apply lookup_delete_eq.
      - eexists. unfold lru.get, lru.getValue. rewrite Hit. cbn.
        by split_and!. }
    destruct Hg as (c1 & Hget & Hnone & Hld1).
    unfold lru.Get, lru.GetWithContext. rewrite Hget. cbn.
    unfold lru.getWithLoader, Base.load. rewrite Hld1. cbn. rewrite Hld1.
    rewrite Hpanic. cbn. eexists. split; [reflexivity|]. done.
  - assert (Hg : ∃ c1, arc.get ca w key false
                       = Some (c1, (zero, Some KeyNotFoundError))
                 ∧ arc.items c1 !! key = None
                 ∧ Base.loaderExpireFunc (arc.base c1) = Some loader).
    { destruct (arc.items ca !! key) as [it|] eqn:Hit.
      - destruct (arc_getValue_expired ca w key it Hwf Hit (Hmiss _ eq_refl))
          as (c1 & Hg & Hi & _ & _ & _ & _ & Hld1 & _).
        exists c1. unfold arc.get. rewrite Hg. split_and!; [done| |congruence].
        rewrite Hi. apply lookup_delete_eq.
      - pose proof Hwf as [_ Hi _].
        assert (Hnin : key ∉ arc.keys (arc.t1 ca) ∪ arc.keys (arc.t2 ca)).
        { rewrite <- Hi. by apply not_elem_of_dom. }
        eexists. unfold arc.get, arc.getValue, arc.getValue_t1, arc.getValue_t2.
        rewrite (proj2 (Lookup_None _ _)) by set_solver. cbn.
        rewrite (proj2 (Lookup_None _ _)) by set_solver. cbn.
        by split_and!. }
    destruct Hg as (c1 & Hget & Hnone & Hld1).
    unfold arc.Get, arc.GetWithContext. rewrite Hget. cbn.
    unfold arc.getWithLoader, Base.load. rewrite Hld1. cbn. rewrite Hld1.
    rewrite Hpanic. cbn. eexists. split; [reflexivity|]. done.
Qed.


End ReadClaims.

(** ** Expiration *)

Section Expiry.
Context {K V : Type} `{Countable K} `{ZeroValue V}.

End Expiry.

(** ** The concrete caches *)

Lemma arc_after_reachable cb w os :
  0 < Base.cb_size cb → arc.reachable (arc_after cb w os).
Proof.
  intros Hs. exists cb, (arc.newARC cb), (ops_at w os). split.
  - unfold arc.Build. case_match; [lia|done].
  - unfold arc_after.
    destruct (run_spec (arc.newARC cb) (ops_at w os) (Inv_newARC cb Hs))
      as (c & -> & _). done.
Qed.

Lemma arc_after_Inv cb w os :
  0 < Base.cb_size cb → arc.Inv (arc_after cb w os).
Proof. intros Hs. by apply reachable_Inv, arc_after_reachable. Qed.





(** C6 is not met by the code. The entry of key 1 expires at 110 on the
    injected clock, which now shows 200, and a Get finds it expired; Has,
    Keys, Len and GetALL read the wall clock (101) instead and still report
    it, whatever the injected clock shows. Both engines. *)
Theorem snapshots_read_the_wall_clock :
  (∀ t, lru.Has lru_one (at_ 101 t) 1 = true)
  ∧ lru.Keys lru_one (at_ 101 200) true = [1]
  ∧ lru.Len lru_one (at_ 101 200) true = 1
  ∧ lru.GetALL lru_one (at_ 101 200) true !! 1 = Some 7
  ∧ (lru.getValue lru_one (at_ 101 200) 1 false).2
    = (0, Some KeyNotFoundError)
  ∧ (∀ t, arc.Has arc_one (at_ 101 t) 1 = true)
  ∧ arc.Keys arc_one (at_ 101 200) true = [1]
  ∧ arc.Len arc_one (at_ 101 200) true = 1
  ∧ arc.GetALL arc_one (at_ 101 200) true !! 1 = Some 7
  ∧ snd <$> arc.getValue arc_one (at_ 101 200) 1 false
    = Some (0, Some KeyNotFoundError).
Proof. split_and!; try intros t; vm_compute; done. Qed.

(** *** The properties at concrete inputs *)

Lemma arc_capacity_bounds_witness :
  arc.Build (Base.New (K:=Z) (V:=Z) 2) = Some arc_fresh
  ∧ ∃ c, arc.run arc_fresh
           (ops_at (at_ 0 0)
              [arc.OpSet 1 10; arc.OpSet 2 20; arc.OpRemove 1;
               arc.OpSet 3 30; arc.OpGet 2; arc.OpPurge]) = Some c
      ∧ arc.Len_ (arc.t1 c) + arc.Len_ (arc.t2 c) ≤ 2
      ∧ arc.Len_ (arc.t1 c) + arc.Len_ (arc.t2 c)
        + arc.Len_ (arc.b1 c) + arc.Len_ (arc.b2 c) ≤ 2 * 2.
Proof.
  split; [reflexivity|].
  apply (arc_capacity_bounds (Base.New 2) arc_fresh). reflexivity.
Defined.



Lemma ghost_hit_adapts_target_witness :
  (arc.Inv arc_ghost_b1
   ∧ Base.serialized (arc.base arc_ghost_b1) 3 31 = (31, None)
   ∧ 3 ∈ arc.keys (arc.b1 arc_ghost_b1)
   ∧ ∃ cr c',
       arc.replace
         (arc.setPart (arc.store_item arc_ghost_b1 (at_ 0 0) 3 31)
            (Z.min (Base.size (arc.base arc_ghost_b1))
               (arc.part arc_ghost_b1
                + Z.max 1 (arc.Len_ (arc.b2 arc_ghost_b1)
                           / arc.Len_ (arc.b1 arc_ghost_b1))))) 3 = Some cr
       ∧ arc.set arc_ghost_b1 (at_ 0 0) 3 31 = Some (c', None)
       ∧ arc.part c' = 1
       ∧ arc.t1 c' = arc.t1 cr ∧ arc.b2 c' = arc.b2 cr
       ∧ arc.b1 c' = arc.Remove_ (arc.b1 cr) 3 3
       ∧ (3 ∉ arc.keys (arc.b1 c'))
       ∧ arc.t2 c' = arc.PushFront (arc.t2 cr) 3
       ∧ head (arc.l (arc.t2 c')) = Some 3)
  ∧ (arc.Inv arc_ghost_b2
     ∧ Base.serialized (arc.base arc_ghost_b2) 2 21 = (21, None)
     ∧ 2 ∈ arc.keys (arc.b2 arc_ghost_b2)
     ∧ ∃ cr c',
         arc.replace
           (arc.setPart (arc.store_item arc_ghost_b2 (at_ 0 0) 2 21)
              (Z.max 0
                 (arc.part arc_ghost_b2
                  - Z.max 1 (arc.Len_ (arc.b1 arc_ghost_b2)
                             / arc.Len_ (arc.b2 arc_ghost_b2))))) 2 = Some cr
         ∧ arc.set arc_ghost_b2 (at_ 0 0) 2 21 = Some (c', None)
         ∧ arc.part c' = 0
         ∧ arc.t1 c' = arc.t1 cr ∧ arc.b1 c' = arc.b1 cr
         ∧ arc.b2 c' = arc.Remove_ (arc.b2 cr) 2 2
         ∧ (2 ∉ arc.keys (arc.b2 c'))
         ∧ arc.t2 c' = arc.PushFront (arc.t2 cr) 2
         ∧ head (arc.l (arc.t2 c')) = Some 2).
Proof.
  assert (HI1 : arc.Inv arc_ghost_b1) by (apply arc_after_Inv; reflexivity).
  assert (HI2 : arc.Inv arc_ghost_b2) by (apply arc_after_Inv; reflexivity).
  assert (Hs1 : Base.serialized (arc.base arc_ghost_b1) 3 31 = (31, None))
    by reflexivity.
  assert (Hs2 : Base.serialized (arc.base arc_ghost_b2) 2 21 = (21, None))
    by reflexivity.
  assert (Hin1 : 3 ∈ arc.keys (arc.b1 arc_ghost_b1)) by (vm_compute; set_solver).
  assert (Hin2 : 2 ∈ arc.keys (arc.b2 arc_ghost_b2)) by (vm_compute; set_solver).
  split.
  - split; [exact HI1|]. split; [exact Hs1|]. split; [exact Hin1|].
    exact (proj1 (ghost_hit_adapts_target arc_ghost_b1 (at_ 0 0) 3 31 31
                    HI1 Hs1) Hin1).
  - split; [exact HI2|]. split; [exact Hs2|]. split; [exact Hin2|].
    exact (proj2 (ghost_hit_adapts_target arc_ghost_b2 (at_ 0 0) 2 21 21
                    HI2 Hs2) Hin2).
Defined.

Lemma remove_then_set_rehits_ghost_witness :
  (arc.Inv arc_two
   ∧ Base.serialized (arc.base arc_two) 1 11 = (11, None)
   ∧ 1 ∈ arc.keys (arc.t1 arc_two)
   ∧ ∃ c1 c2,
       arc.Remove arc_two 1 = Some (c1, true)
       ∧ arc.items c1 !! 1 = None
       ∧ head (arc.l (arc.b1 c1)) = Some 1
       ∧ arc.Set_ c1 (at_ 0 0) 1 11 = Some (c2, None)
       ∧ head (arc.l (arc.t2 c2)) = Some 1
       ∧ (1 ∉ arc.keys (arc.t1 c2)))
  ∧ (arc.Inv arc_two
     ∧ Base.serialized (arc.base arc_two) 2 21 = (21, None)
     ∧ 2 ∈ arc.keys (arc.t2 arc_two)
     ∧ ∃ c1 c2,
         arc.Remove arc_two 2 = Some (c1, true)
         ∧ arc.items c1 !! 2 = None
         ∧ head (arc.l (arc.b2 c1)) = Some 2
         ∧ arc.Set_ c1 (at_ 0 0) 2 21 = Some (c2, None)
         ∧ head (arc.l (arc.t2 c2)) = Some 2
         ∧ (2 ∉ arc.keys (arc.t1 c2))).
Proof.
  assert (HI : arc.Inv arc_two) by (apply arc_after_Inv; reflexivity).
  assert (Hs1 : Base.serialized (arc.base arc_two) 1 11 = (11, None))
    by reflexivity.
  assert (Hs2 : Base.serialized (arc.base arc_two) 2 21 = (21, None))
    by reflexivity.
  assert (Hin1 : 1 ∈ arc.keys (arc.t1 arc_two)) by (vm_compute; set_solver).
  assert (Hin2 : 2 ∈ arc.keys (arc.t2 arc_two)) by (vm_compute; set_solver).
  split.
  - split; [exact HI|]. split; [exact Hs1|]. split; [exact Hin1|].
    exact (proj1 (remove_then_set_rehits_ghost arc_two (at_ 0 0) 1 11 11
                    HI Hs1) Hin1).
  - split; [exact HI|]. split; [exact Hs2|]. split; [exact Hin2|].
    exact (proj2 (remove_then_set_rehits_ghost arc_two (at_ 0 0) 2 21 21
                    HI Hs2) Hin2).
Defined.

Lemma loader_panic_is_returned_witness :
  boom (at_ 0 0) 1 = LoaderPanic "boom"
  ∧ (lru.wf (lru.newLRUCache panicking_builder)
     ∧ Base.loaderExpireFunc (lru.base (lru.newLRUCache panicking_builder))
       = Some boom
     ∧ (∀ it, lru.items (lru.newLRUCache panicking_builder) !! 1 = Some it
              → lru.IsExpired it None (at_ 0 0) = true)
     ∧ ∃ c', lru.Get (lru.newLRUCache panicking_builder) (at_ 0 0) 1
             = Some (c', (zero, Some (errorString ("loader panics: " +:+ "boom"))))
         ∧ lru.items c' !! 1 = None)
  ∧ (arc.Inv (arc.newARC panicking_builder)
     ∧ Base.loaderExpireFunc (arc.base (arc.newARC panicking_builder))
       = Some boom
     ∧ (∀ it, arc.items (arc.newARC panicking_builder) !! 1 = Some it
              → arc.IsExpired it None (at_ 0 0) = true)
     ∧ ∃ c', arc.Get (arc.newARC panicking_builder) (at_ 0 0) 1
             = Some (c', (zero, Some (errorString ("loader panics: " +:+ "boom"))))
         ∧ arc.items c' !! 1 = None).
Proof.
  assert (Hp : boom (at_ 0 0) 1 = LoaderPanic "boom") by reflexivity.
  assert (Hwf : lru.wf (lru.newLRUCache panicking_builder))
    by apply lru_wf_new.
  assert (HI : arc.Inv (arc.newARC panicking_builder))
    by (apply Inv_newARC; reflexivity).
  assert (Hml : ∀ it, lru.items (lru.newLRUCache panicking_builder) !! 1
                      = Some it → lru.IsExpired it None (at_ 0 0) = true)
    by (intros it Hit; discriminate Hit).
  assert (Hma : ∀ it, arc.items (arc.newARC panicking_builder) !! 1
                      = Some it → arc.IsExpired it None (at_ 0 0) = true)
    by (intros it Hit; discriminate Hit).
  destruct (loader_panic_is_returned (lru.newLRUCache panicking_builder)
              (arc.newARC panicking_builder) (at_ 0 0) 1 boom "boom" Hp)
    as [Tl Ta].
  split; [exact Hp|]. split.
  - split; [exact Hwf|]. split; [reflexivity|]. split; [exact Hml|].
    exact (Tl Hwf eq_refl Hml).
  - split; [exact HI|]. split; [reflexivity|]. split; [exact Hma|].
    exact (Ta HI eq_refl Hma).
Defined.



